(** * yttext: caption scraper and transcript formatters

    A shallow embedding of the Go packages [api] (the caption scraper) and
    [formatters] (text, JSON, SRT and readable output), followed by the
    properties of the specification that were checked against them.

    Go strings are byte sequences: they are embedded as [string] (a list of
    8-bit [ascii] characters).  [float64] is embedded as Rocq's primitive
    binary64 [float], so that arithmetic rounds as it does in the program.
    [int] and [time.Duration] are 64-bit integers, embedded as [Z]: a
    float converted to an integer out of range gives the most negative
    one, and the sums the program forms (an index plus one, two lengths
    plus one) stay far below 2^63, so that nothing wraps around. *)

From Stdlib Require Import ZArith List Ascii String Bool Lia.
From Stdlib Require Import Floats DecimalString.
From stdpp Require Import base option list gmap strings.

Set Warnings "-register-all".
#[local] Open Scope Z_scope.

(** ** Characters that cannot be written inside a string literal *)

Definition LF : ascii := "010"%char.
Definition nl : string := String LF EmptyString.
Definition dq : string := String "034"%char EmptyString.

(** ** Packages [unicode/utf8] and [unicode] *)

Module Utf8.

Definition rune := Z.

Definition byteZ (c : ascii) : Z := Z.of_N (N_of_ascii c).

Definition RuneError : rune := 0xFFFD.

Definition between (lo hi b : Z) : bool := (lo <=? b) && (b <=? hi).

Definition cont (b : Z) : Z := Z.land b 0x3F.

(** [utf8.DecodeRuneInString]: the first rune of [s] and its width in
    bytes; an invalid or truncated encoding decodes to [RuneError] of
    width 1, the empty string to [RuneError] of width 0. *)
Definition DecodeRuneInString (s : string) : rune * nat :=
  match s with
  | EmptyString => (RuneError, 0%nat)
  | String c0 s1 =>
      let b0 := byteZ c0 in
      if b0 <? 0x80 then (b0, 1%nat)
      else if between 0xC2 0xDF b0 then
        match s1 with
        | String c1 _ =>
            let b1 := byteZ c1 in
            if between 0x80 0xBF b1
            then (Z.lor (Z.shiftl (Z.land b0 0x1F) 6) (cont b1), 2%nat)
            else (RuneError, 1%nat)
        | _ => (RuneError, 1%nat)
        end
      else if between 0xE0 0xEF b0 then
        match s1 with
        | String c1 (String c2 _) =>
            let b1 := byteZ c1 in
            let b2 := byteZ c2 in
            let lo := if b0 =? 0xE0 then 0xA0 else 0x80 in
            let hi := if b0 =? 0xED then 0x9F else 0xBF in
            if between lo hi b1 && between 0x80 0xBF b2
            then (Z.lor (Z.shiftl (Z.land b0 0x0F) 12)
                    (Z.lor (Z.shiftl (cont b1) 6) (cont b2)), 3%nat)
            else (RuneError, 1%nat)
        | _ => (RuneError, 1%nat)
        end
      else if between 0xF0 0xF4 b0 then
        match s1 with
        | String c1 (String c2 (String c3 _)) =>
            let b1 := byteZ c1 in
            let b2 := byteZ c2 in
            let b3 := byteZ c3 in
            let lo := if b0 =? 0xF0 then 0x90 else 0x80 in
            let hi := if b0 =? 0xF4 then 0x8F else 0xBF in
            if between lo hi b1 && between 0x80 0xBF b2 && between 0x80 0xBF b3
            then (Z.lor (Z.shiftl (Z.land b0 0x07) 18)
                    (Z.lor (Z.shiftl (cont b1) 12)
                       (Z.lor (Z.shiftl (cont b2) 6) (cont b3))), 4%nat)
            else (RuneError, 1%nat)
        | _ => (RuneError, 1%nat)
        end
      else (RuneError, 1%nat)
  end.

(** What [for _, r := range s] and [[]rune(s)] see: the runes of [s] in
    order, each with the bytes it was decoded from. *)
Fixpoint runesAux (skip : nat) (s : string) : list (rune * string) :=
  match s with
  | EmptyString => []
  | String _ s' =>
      match skip with
      | S k => runesAux k s'
      | O => let '(r, n) := DecodeRuneInString s in
             (r, String.substring 0 n s) :: runesAux (n - 1) s'
      end
  end.

Definition runes (s : string) : list (rune * string) := runesAux 0 s.

(** The bytes of a sequence of decoded runes. *)
Definition bytes (rs : list (rune * string)) : string :=
  fold_right (fun rb acc => snd rb +:+ acc) EmptyString rs.

End Utf8.

Module Unicode.
Import Utf8.

(** [unicode.IsSpace]: the Latin-1 cases and the rest of the White_Space
    property. *)
Definition IsSpace (r : rune) : bool :=
  between 0x09 0x0D r || (r =? 0x20) || (r =? 0x85) || (r =? 0xA0)
  || (r =? 0x1680) || between 0x2000 0x200A r
  || (r =? 0x2028) || (r =? 0x2029) || (r =? 0x202F)
  || (r =? 0x205F) || (r =? 0x3000).

Section Upper.
(** The table [unicode.Upper] (category Lu) above Latin-1: a table of
    the Go distribution, taken as given. *)
Variable upperTable : rune -> bool.

(** [unicode.IsUpper]: below U+0100 the upper-case letters are A-Z,
    U+00C0-U+00D6 and U+00D8-U+00DE. *)
Definition IsUpper (r : rune) : bool :=
  if r <=? 0xFF
  then between 0x41 0x5A r || between 0xC0 0xD6 r || between 0xD8 0xDE r
  else upperTable r.
End Upper.

End Unicode.

(** ** Package [strings] (the functions the program calls) *)

Module Strings.
Import Utf8 Unicode.

Fixpoint drop (n : nat) (s : string) : string :=
  match n, s with
  | S k, String _ s' => drop k s'
  | _, _ => s
  end.

(** [strings.HasPrefix(s, prefix)] *)
Definition HasPrefix (s prefix : string) : bool := String.prefix prefix s.

(** [strings.HasSuffix(s, suffix)] *)
Definition HasSuffix (s suffix : string) : bool :=
  (String.length suffix <=? String.length s)%nat
  && String.eqb (drop (String.length s - String.length suffix) s) suffix.

(** [strings.Contains(s, substr)] *)
Fixpoint Contains (s substr : string) : bool :=
  HasPrefix s substr
  || match s with
     | EmptyString => false
     | String _ s' => Contains s' substr
     end.

(** [strings.Index(s, substr)]: byte offset of the first occurrence, -1
    when there is none. *)
Fixpoint Index (s substr : string) : Z :=
  if HasPrefix s substr then 0
  else match s with
       | EmptyString => -1
       | String _ s' => let i := Index s' substr in
                        if i <? 0 then -1 else i + 1
       end.

(** [s[:n]] *)
Definition slice_to (s : string) (n : Z) : string :=
  String.substring 0 (Z.to_nat n) s.

(** [strings.Split(s, sep)] for a non-empty [sep] (every call site passes a
    non-empty literal): the pieces between the non-overlapping occurrences
    of [sep], found left to right.  [skip] counts the bytes of an
    occurrence of [sep] that remain to be passed over; the head of the
    result is the piece being read. *)
Fixpoint splitAux (sep : string) (skip : nat) (s : string) : list string :=
  match s with
  | EmptyString => [EmptyString]
  | String c s' =>
      match skip with
      | S k => splitAux sep k s'
      | O =>
          if HasPrefix s sep
          then EmptyString :: splitAux sep (String.length sep - 1) s'
          else match splitAux sep 0 s' with
               | p :: ps => String c p :: ps
               | [] => [String c EmptyString]
               end
      end
  end.

Definition Split (s sep : string) : list string := splitAux sep 0 s.

(** [strings.ReplaceAll(s, old, new)] for a non-empty [old]: every
    non-overlapping occurrence of [old], found left to right, becomes
    [new]. *)
Fixpoint replaceAux (old new : string) (skip : nat) (s : string) : string :=
  match s with
  | EmptyString => EmptyString
  | String c s' =>
      match skip with
      | S k => replaceAux old new k s'
      | O =>
          if HasPrefix s old
          then new +:+ replaceAux old new (String.length old - 1) s'
          else String c (replaceAux old new 0 s')
      end
  end.

Definition ReplaceAll (s old new : string) : string := replaceAux old new 0 s.


(** The loop of [strings.FieldsFunc]: [cur] is the field being read. *)
Fixpoint fieldsAux (f : rune -> bool) (cur : option string)
         (rs : list (rune * string)) : list string :=
  match rs with
  | [] => match cur with Some w => [w] | None => [] end
  | (r, b) :: rs' =>
      if f r
      then match cur with
           | Some w => w :: fieldsAux f None rs'
           | None => fieldsAux f None rs'
           end
      else fieldsAux f (Some (match cur with Some w => w +:+ b | None => b end)) rs'
  end.

(** [strings.Fields(s)]: the maximal runs of runes that are not white
    space ([unicode.IsSpace]). *)
Definition Fields (s : string) : list string := fieldsAux IsSpace None (runes s).

Fixpoint dropWhileSpace (rs : list (rune * string)) : list (rune * string) :=
  match rs with
  | (r, b) :: rs' => if IsSpace r then dropWhileSpace rs' else rs
  | [] => []
  end.

(** [strings.TrimSpace(s)]: leading and trailing white-space runes
    removed.  (The trailing runes are those [utf8.DecodeLastRuneInString]
    finds; a white-space rune is a valid encoding, which starts at a
    rune boundary of the forward decoding too.) *)
Definition TrimSpace (s : string) : string :=
  bytes (rev (dropWhileSpace (rev (dropWhileSpace (runes s))))).

End Strings.


(** ** Numeric conversions, package [strconv] *)

Module Strconv.
Import Utf8.

(** [float64(n)] for an integer [n]: rounded to nearest, ties to even. *)
Definition float64_of_int (n : Z) : float :=
  SF2Prim (binary_normalize prec emax n 0 false).

Definition minInt64 : Z := - 2 ^ 63.

(** [int64(f)] and [int(f)] (64-bit): the fraction is discarded.  Where the
    value does not fit, Go leaves the result to the implementation; this is
    amd64's, the most negative integer. *)
Definition int_of_float64 (f : float) : Z :=
  match Prim2SF f with
  | S754_zero _ => 0
  | S754_finite s m e =>
      let a := if 0 <=? e then Zpos m * 2 ^ e else Zpos m / 2 ^ (- e) in
      let v := if s then - a else a in
      if (minInt64 <=? v) && (v <? 2 ^ 63) then v else minInt64
  | _ => minInt64
  end.

Definition isDigit (c : ascii) : bool := between 0x30 0x39 (byteZ c).

(** The scan of [strconv.readFloat] over decimal digits and the point:
    [mant] collects the digits, [frac] counts those after the point.  A
    second point, or a text without any digit, is a syntax error.  Only
    texts over the digits and the point are modelled, which is all the cue
    pattern lets through; any other byte is reported as an error here. *)
Fixpoint readDecimal (s : string) (mant frac : Z) (sawdot sawdigits : bool)
  : option (Z * Z) :=
  match s with
  | EmptyString => if sawdigits then Some (mant, frac) else None
  | String c s' =>
      if isDigit c
      then readDecimal s' (10 * mant + (byteZ c - 0x30))
                       (if sawdot then frac + 1 else frac) sawdot true
      else if Ascii.eqb c "."
           then if sawdot then None else readDecimal s' mant frac true sawdigits
           else None
  end.

(** [strconv.ParseFloat(s, 64)]: the binary64 nearest to the decimal (ties
    to even); [None] stands for a non-nil error, which is a syntax error or
    a value out of range (the rounded value would be infinite). *)
Definition ParseFloat (s : string) : option float :=
  match readDecimal s 0 0 false false with
  | None => None
  | Some (mant, frac) =>
      match mant with
      | Zpos m =>
          match SFdiv prec emax (S754_finite false m 0)
                      (S754_finite false (Z.to_pos (10 ^ frac)) 0) with
          | S754_infinity _ | S754_nan => None
          | q => Some (SF2Prim q)
          end
      | _ => Some 0%float
      end
  end.

End Strconv.

(** ** Package [fmt]: the integer verbs the program uses *)

Module Fmt.

(** The decimal digits of a natural number. *)
Definition digits (n : Z) : string := NilEmpty.string_of_uint (N.to_uint (Z.to_N n)).

(** [%d] *)
Definition d (n : Z) : string :=
  if n <? 0 then "-" +:+ digits (- n) else digits n.

Fixpoint zeros (n : nat) : string :=
  match n with
  | O => EmptyString
  | S k => String "0" (zeros k)
  end.

(** [%0wd]: zeros fill the field up to [w] bytes, after the sign. *)
Definition d0 (w : nat) (n : Z) : string :=
  let sign := if n <? 0 then "-"%string else EmptyString in
  let ds := digits (Z.abs n) in
  sign +:+ zeros (w - String.length sign - String.length ds) +:+ ds.

End Fmt.

(** ** Package [time]: durations in nanoseconds *)

Module Time.
Import Strconv.

Definition Duration := Z.
Definition Second : Duration := 1000000000.
Definition Minute : Duration := 60 * Second.
Definition Hour : Duration := 60 * Minute.

(** [d.Hours()], [d.Minutes()], [d.Seconds()]: the whole part and the
    remainder are converted apart and added. *)
Definition Hours (d : Duration) : float :=
  (float64_of_int (Z.quot d Hour) + float64_of_int (Z.rem d Hour) / 3600000000000)%float.

Definition Minutes (d : Duration) : float :=
  (float64_of_int (Z.quot d Minute) + float64_of_int (Z.rem d Minute) / 60000000000)%float.

Definition Seconds (d : Duration) : float :=
  (float64_of_int (Z.quot d Second) + float64_of_int (Z.rem d Second) / 1000000000)%float.

End Time.

(** ** Package [regexp]: a backtracking matcher for the constructs the cue
    pattern is built from

    Go's matcher returns the leftmost match and, among the matches that
    start there, the one a backtracking search finds first: a greedy
    repetition tries the longest run first, a lazy one the shortest.  The
    pattern language modelled here has literals and repetitions of one
    character class, each possibly inside a capturing group. *)

Module Regexp.

Definition class := ascii -> bool.

Inductive atom :=
| Lit (s : string)          (* literal text *)
| Plus (c : class)          (* [c]+   greedy, at least one *)
| StarLazy (c : class).     (* [c]*?  lazy *)

Inductive node :=
| Plain (a : atom)
| Capture (a : atom).       (* ( a ) *)

Definition regexp := list node.

Section Atoms.
Context {R : Type}.
(** [k] matches the rest of the pattern on the rest of the input. *)
Variable k : string -> option R.

Definition lit (l s : string) : option (string * R) :=
  if Strings.HasPrefix s l
  then match k (Strings.drop (String.length l) s) with
       | Some r => Some (l, r)
       | None => None
       end
  else None.

Fixpoint starGreedy (c : class) (s : string) : option (string * R) :=
  let stop := match k s with Some r => Some (EmptyString, r) | None => None end in
  match s with
  | String x s' =>
      if c x
      then match starGreedy c s' with
           | Some (m, r) => Some (String x m, r)
           | None => stop
           end
      else stop
  | EmptyString => stop
  end.

Definition plusGreedy (c : class) (s : string) : option (string * R) :=
  match s with
  | String x s' =>
      if c x
      then match starGreedy c s' with
           | Some (m, r) => Some (String x m, r)
           | None => None
           end
      else None
  | EmptyString => None
  end.

Fixpoint starLazy (c : class) (s : string) : option (string * R) :=
  match k s with
  | Some r => Some (EmptyString, r)
  | None =>
      match s with
      | String x s' =>
          if c x
          then match starLazy c s' with
               | Some (m, r) => Some (String x m, r)
               | None => None
               end
          else None
      | EmptyString => None
      end
  end.

Definition matchAtom (a : atom) (s : string) : option (string * R) :=
  match a with
  | Lit l => lit l s
  | Plus c => plusGreedy c s
  | StarLazy c => starLazy c s
  end.
End Atoms.

(** A match of [re] at the start of [s]: the texts of the capturing groups
    and the input left after the match. *)
Fixpoint matchHere (re : regexp) (s : string) : option (list string * string) :=
  match re with
  | [] => Some ([], s)
  | Plain a :: re' =>
      match matchAtom (matchHere re') a s with
      | Some (_, r) => Some r
      | None => None
      end
  | Capture a :: re' =>
      match matchAtom (matchHere re') a s with
      | Some (m, (caps, rest)) => Some (m :: caps, rest)
      | None => None
      end
  end.

(** [re.FindAllStringSubmatch(s, -1)]: the successive non-overlapping
    matches, each as the matched text followed by its groups.  [skip]
    counts the bytes of the last match still to be passed over.  (An empty
    match advances by one byte; the cue pattern has none.) *)
Fixpoint findAll (re : regexp) (skip : nat) (s : string) : list (list string) :=
  match s with
  | EmptyString => []
  | String _ s' =>
      match skip with
      | S k => findAll re k s'
      | O =>
          match matchHere re s with
          | Some (caps, rest) =>
              let n := (String.length s - String.length rest)%nat in
              (String.substring 0 n s :: caps) :: findAll re (n - 1) s'
          | None => findAll re 0 s'
          end
      end
  end.

Definition FindAllStringSubmatch (re : regexp) (s : string) : list (list string) :=
  findAll re 0 s.

End Regexp.

(** ** Errors

    One constructor for each place where the program builds an error; the
    comment gives the message.  [kindOf] files them under the error kinds
    of the specification. *)

Inductive error :=
| ErrInvalidURL                 (* invalid URL: %v *)
| ErrNoVideoID (videoURL : string) (* could not extract video ID from URL: %s *)
| ErrCreateRequest              (* failed to create request: %v *)
| ErrFetchPage                  (* failed to fetch video page: %v *)
| ErrPageStatus (code : Z)      (* video not found or not accessible (HTTP %d) *)
| ErrReadPage                   (* failed to read video page: %v *)
| ErrTooManyRequests            (* too many requests *)
| ErrVideoUnavailable           (* video unavailable *)
| ErrTranscriptsDisabled        (* transcripts disabled for this video *)
| ErrExtractCaptionsJSON        (* failed to extract captions JSON *)
| ErrParseCaptionsJSON          (* failed to parse captions JSON: %v *)
| ErrNoTranscriptAvailable      (* no transcript available for this video *)
| ErrNoCaptionTracks            (* no caption tracks found *)
| ErrNoSuitableTrack            (* no suitable caption track found *)
| ErrTrackURL                   (* failed to extract caption track URL *)
| ErrFetchTranscript            (* failed to fetch transcript XML: %v *)
| ErrTranscriptStatus (code : Z) (* failed to fetch transcript (HTTP %d) *)
| ErrReadTranscript             (* failed to read transcript data: %v *)
| ErrNoTranscriptText           (* no transcript text found in XML *)
| ErrParseFailure               (* failed to parse any transcript entries *)
| ErrUnknownFormat (formatType : string). (* unknown format type: %s *)

Inductive kind :=
| InvalidURL | FetchError | RateLimited | VideoUnavailable | CaptionsDisabled
| NoTranscriptAvailable | NoSuitableTrack | ExtractionError
| NoTranscriptText | ParseFailure | UnknownFormat.

Definition kindOf (e : error) : kind :=
  match e with
  | ErrInvalidURL | ErrNoVideoID _ => InvalidURL
  | ErrCreateRequest | ErrFetchPage | ErrPageStatus _ | ErrReadPage
  | ErrFetchTranscript | ErrTranscriptStatus _ | ErrReadTranscript => FetchError
  | ErrTooManyRequests => RateLimited
  | ErrVideoUnavailable => VideoUnavailable
  | ErrTranscriptsDisabled => CaptionsDisabled
  | ErrExtractCaptionsJSON | ErrParseCaptionsJSON => ExtractionError
  | ErrNoTranscriptAvailable => NoTranscriptAvailable
  | ErrNoCaptionTracks | ErrNoSuitableTrack | ErrTrackURL => NoSuitableTrack
  | ErrNoTranscriptText => NoTranscriptText
  | ErrParseFailure => ParseFailure
  | ErrUnknownFormat _ => UnknownFormat
  end.

(** A Go result [(T, error)]. *)
Inductive result (A : Type) :=
| Ok (a : A)
| Err (e : error).
Arguments Ok {A} a.
Arguments Err {A} e.

#[global] Instance result_bind : MBind result :=
  fun A B f r => match r with
                 | Ok a => f a
                 | Err e => Err e
                 end.

(** ** Package [api]: the scraper *)

Module Api.
Import Strings Utf8 Strconv Regexp.

(** [Transcript]: one caption entry. *)
Record Transcript := {
  Text : string;
  Duration : float;
  Offset : float;
  StartTime : float
}.

(** What [encoding/json] decodes into an [interface{}]. *)
Inductive Value :=
| VNil
| VBool (b : bool)
| VNumber (f : float)
| VString (s : string)
| VArray (l : list Value)
| VObject (m : gmap string Value).

(** The type assertions [v.(map[string]interface{})], [v.(string)] and
    [v.([]interface{})]; [None] is the [ok = false] outcome (and the nil map
    of a failed map assertion). *)
Definition asObject (v : Value) : option (gmap string Value) :=
  match v with VObject m => Some m | _ => None end.

Definition asString (v : Value) : option string :=
  match v with VString s => Some s | _ => None end.

Definition asArray (v : Value) : option (list Value) :=
  match v with VArray l => Some l | _ => None end.

(** [url.URL], the fields the program reads, and [url.Values]. *)
Record URL := { Host : string; RawQuery : string }.

(** [url.Values.Get]: the first value of the key, or the empty string. *)
Definition Get (v : gmap string (list string)) (key : string) : string :=
  match v !! key with
  | Some (x :: _) => x
  | _ => EmptyString
  end.

Record Request := { Method : string; URLPath : string; Header : gmap string string }.

(** An HTTP response; [Body] is [None] when reading it fails. *)
Record Response := { StatusCode : Z; Body : option string }.

Definition StatusOK : Z := 200.

(** The cue pattern
    [<text start="([0-9.]+)" dur="([0-9.]+)".*?>(.*?)</text>]. *)
Definition digitOrDot : class := fun c => isDigit c || Ascii.eqb c ".".
Definition anyChar : class := fun c => negb (Ascii.eqb c LF).

Definition textRegex : regexp :=
  [ Plain (Lit ("<text start=" +:+ dq));
    Capture (Plus digitOrDot);
    Plain (Lit (dq +:+ " dur=" +:+ dq));
    Capture (Plus digitOrDot);
    Plain (Lit dq);
    Plain (StarLazy anyChar);
    Plain (Lit ">");
    Capture (StarLazy anyChar);
    Plain (Lit "</text>") ].

(** The entity replacements of [parseTranscriptXML], in program order. *)
Definition unescape (text : string) : string :=
  let text := ReplaceAll text "&amp;" "&" in
  let text := ReplaceAll text "&lt;" "<" in
  let text := ReplaceAll text "&gt;" ">" in
  let text := ReplaceAll text "&quot;" dq in
  let text := ReplaceAll text "&#39;" "'" in
  text.

(** The body of the loop over the matches: [None] is [continue]. *)
Definition parseMatch (m : list string) : option Transcript :=
  if (length m <? 4)%nat then None
  else match ParseFloat (nth 1 m EmptyString) with
       | None => None
       | Some startTime =>
           match ParseFloat (nth 2 m EmptyString) with
           | None => None
           | Some duration =>
               Some {| Text := unescape (nth 3 m EmptyString);
                       Duration := duration;
                       Offset := startTime;
                       StartTime := startTime |}
           end
       end.

(** [parseTranscriptXML] *)
Definition parseTranscriptXML (xmlData : string) : result (list Transcript) :=
  let matches := FindAllStringSubmatch textRegex xmlData in
  if (length matches =? 0)%nat then Err ErrNoTranscriptText
  else
    let transcripts :=
      fold_left (fun acc m => match parseMatch m with
                              | Some t => acc ++ [t]
                              | None => acc
                              end) matches [] in
    if (length transcripts =? 0)%nat then Err ErrParseFailure
    else Ok transcripts.

(** The search of [fetchTranscripts] for the track of the requested
    language: entries that are not objects, or whose [languageCode] is not
    a string, are passed over; the first equal code ends the loop. *)
Fixpoint findTrack (languageCode : string) (captionTracks : list Value)
  : option (gmap string Value) :=
  match captionTracks with
  | [] => None
  | track :: rest =>
      match asObject track with
      | None => findTrack languageCode rest
      | Some trackMap =>
          match trackMap !! "languageCode" ≫= asString with
          | None => findTrack languageCode rest
          | Some trackLangCode =>
              if String.eqb trackLangCode languageCode then Some trackMap
              else findTrack languageCode rest
          end
      end
  end.

(** The part of [fetchTranscripts] between the captions object and the
    second request: the track that is chosen and its [baseUrl]. *)
Definition selectTrack (captionsJSON : gmap string Value) (languageCode : string)
  : result (gmap string Value * string) :=
  match captionsJSON !! "captionTracks" ≫= asArray with
  | None => Err ErrNoCaptionTracks
  | Some captionTracks =>
      if (length captionTracks =? 0)%nat then Err ErrNoCaptionTracks
      else
        let languageCode :=
          if String.eqb languageCode EmptyString then "en"%string else languageCode in
        let targetTrack := findTrack languageCode captionTracks in
        let targetTrack :=
          match targetTrack with
          | None => if (0 <? length captionTracks)%nat
                    then head captionTracks ≫= asObject
                    else None
          | Some t => Some t
          end in
        match targetTrack with
        | None => Err ErrNoSuitableTrack
        | Some targetTrack =>
            match targetTrack !! "baseUrl" ≫= asString with
            | None => Err ErrTrackURL
            | Some baseURL => Ok (targetTrack, baseURL)
            end
        end
  end.

Section Scraper.
(** The libraries and the network the scraper relies on. *)
Variable url_Parse : string -> option URL.                   (* [url.Parse] *)
Variable url_ParseQuery : string -> gmap string (list string). (* [u.Query()] *)
Variable json_Unmarshal : string -> option (gmap string Value).
Variable http_NewRequest : string -> string -> option Request.
Variable httpClient_Do : Request -> option Response.

(** [extractVideoID] *)
Definition extractVideoID (videoURL : string) : result string :=
  if Contains videoURL "youtu.be"
  then
    let parts := Split videoURL "/" in
    Ok (nth (length parts - 1) parts EmptyString)
  else
    match url_Parse videoURL with
    | None => Err ErrInvalidURL
    | Some u =>
        if String.eqb (Host u) "www.youtube.com" || String.eqb (Host u) "youtube.com"
        then
          let q := url_ParseQuery (RawQuery u) in
          let v := Get q "v" in
          if negb (String.eqb v EmptyString) then Ok v
          else Err (ErrNoVideoID videoURL)
        else Err (ErrNoVideoID videoURL)
    end.

(** [fetchVideoHTML] *)
Definition fetchVideoHTML (videoID : string) : result string :=
  let urlPath := "https://www.youtube.com/watch?v=" +:+ videoID in
  match http_NewRequest "GET" urlPath with
  | None => Err ErrCreateRequest
  | Some req =>
      let req := {| Method := Method req; URLPath := URLPath req;
                    Header := <["Accept-Language" := "en-US"%string]> (Header req) |} in
      match httpClient_Do req with
      | None => Err ErrFetchPage
      | Some resp =>
          if negb (StatusCode resp =? StatusOK) then Err (ErrPageStatus (StatusCode resp))
          else match Body resp with
               | None => Err ErrReadPage
               | Some bodyBytes => Ok bodyBytes
               end
      end
  end.

Definition captionsMarker : string := dq +:+ "captions" +:+ dq +:+ ":".
Definition captchaMarker : string := "class=" +:+ dq +:+ "g-recaptcha" +:+ dq.
Definition playabilityMarker : string := dq +:+ "playabilityStatus" +:+ dq +:+ ":".

(** [extractCaptionsJSON] *)
Definition extractCaptionsJSON (html videoID : string) : result (gmap string Value) :=
  let parts := Split html captionsMarker in
  if (length parts <=? 1)%nat then
    if Contains html captchaMarker then Err ErrTooManyRequests
    else if negb (Contains html playabilityMarker) then Err ErrVideoUnavailable
    else Err ErrTranscriptsDisabled
  else
    let jsonPart := nth 1 parts EmptyString in
    let endIndex := Index jsonPart ("," +:+ dq +:+ "videoDetails") in
    if endIndex =? -1 then Err ErrExtractCaptionsJSON
    else
      let jsonStr := slice_to jsonPart endIndex in
      let jsonStr := ReplaceAll jsonStr nl EmptyString in
      match json_Unmarshal jsonStr with
      | None => Err ErrParseCaptionsJSON
      | Some result =>
          match result !! "playerCaptionsTracklistRenderer" ≫= asObject with
          | None => Err ErrTranscriptsDisabled
          | Some captionsJSON =>
              match captionsJSON !! "captionTracks" with
              | None => Err ErrNoTranscriptAvailable
              | Some _ => Ok captionsJSON
              end
          end
      end.

(** [fetchTranscripts] *)
Definition fetchTranscripts (videoID languageCode : string) : result (list Transcript) :=
  html ← fetchVideoHTML videoID;
  captionsJSON ← extractCaptionsJSON html videoID;
  target ← selectTrack captionsJSON languageCode;
  match http_NewRequest "GET" (snd target) ≫= httpClient_Do with
  | None => Err ErrFetchTranscript
  | Some resp =>
      if negb (StatusCode resp =? StatusOK) then Err (ErrTranscriptStatus (StatusCode resp))
      else match Body resp with
           | None => Err ErrReadTranscript
           | Some xmlData => parseTranscriptXML xmlData
           end
  end.

(** [GetTranscripts] and [GetTranscriptsByURL] *)
Definition GetTranscripts (videoID languageCode : string) : result (list Transcript) :=
  fetchTranscripts videoID languageCode.

Definition GetTranscriptsByURL (videoURL languageCode : string) : result (list Transcript) :=
  videoID ← extractVideoID videoURL;
  fetchTranscripts videoID languageCode.

End Scraper.

End Api.

(** ** Package [formatters] *)

Module Formatters.
Import Strings Utf8 Unicode Strconv Time Api.

Definition defaultLineLength : Z := 80.

(** [len(s)] as an [int]. *)
Definition len (s : string) : Z := Z.of_nat (String.length s).

(** [formatTime]: M:SS, or H:MM:SS from one hour on. *)
Definition formatTime (seconds : float) : string :=
  let duration := int_of_float64 (seconds * float64_of_int Second)%float in
  let h := int_of_float64 (Hours duration) in
  let m := Z.rem (int_of_float64 (Minutes duration)) 60 in
  let s := Z.rem (int_of_float64 (Seconds duration)) 60 in
  if 0 <? h
  then Fmt.d h +:+ ":" +:+ Fmt.d0 2 m +:+ ":" +:+ Fmt.d0 2 s
  else Fmt.d m +:+ ":" +:+ Fmt.d0 2 s.

(** [formatSRTTime]: HH:MM:SS,mmm.  The hours, minutes and seconds come
    from the duration in nanoseconds, the milliseconds from the fraction of
    [seconds]. *)
Definition formatSRTTime (seconds : float) : string :=
  let duration := int_of_float64 (seconds * float64_of_int Second)%float in
  let h := int_of_float64 (Hours duration) in
  let m := Z.rem (int_of_float64 (Minutes duration)) 60 in
  let s := Z.rem (int_of_float64 (Seconds duration)) 60 in
  let ms := int_of_float64
              ((seconds - float64_of_int (int_of_float64 seconds)) * 1000)%float in
  Fmt.d0 2 h +:+ ":" +:+ Fmt.d0 2 m +:+ ":" +:+ Fmt.d0 2 s +:+ "," +:+ Fmt.d0 3 ms.

(** [TextFormatter.Format]: the builder [sb] is threaded through the loop. *)
Definition TextFormatter_Format (transcripts : list Transcript) : result string :=
  Ok (fold_left
        (fun sb t => sb +:+ ("[" +:+ formatTime (StartTime t) +:+ "] " +:+ Text t +:+ nl))
        transcripts EmptyString).

(** One turn of the loop of [SRTFormatter.Format], for the entry of index
    [i]: what it writes to the builder. *)
Definition srtEntry (i : Z) (t : Transcript) : string :=
  let startTime := StartTime t in
  let endTime := (startTime + Duration t)%float in
  let startFormatted := formatSRTTime startTime in
  let endFormatted := formatSRTTime endTime in
  (Fmt.d (i + 1) +:+ nl)
  +:+ (startFormatted +:+ " --> " +:+ endFormatted +:+ nl)
  +:+ (Text t +:+ nl +:+ nl).

Fixpoint srtLoop (i : Z) (transcripts : list Transcript) (sb : string) : string :=
  match transcripts with
  | [] => sb
  | t :: rest => srtLoop (i + 1) rest (sb +:+ srtEntry i t)
  end.

(** [SRTFormatter.Format] *)
Definition SRTFormatter_Format (transcripts : list Transcript) : result string :=
  Ok (srtLoop 0 transcripts EmptyString).

(** [wrapText] *)
Definition wrapStep (lineLength : Z) (st : string * string) (word : string)
  : string * string :=
  let '(sb, currentLine) := st in
  if lineLength <? len currentLine + 1 + len word
  then (sb +:+ (currentLine +:+ nl), word)
  else (sb, currentLine +:+ (" " +:+ word)).

Definition wrapText (text : string) (lineLength : Z) : string :=
  if lineLength <=? 0 then text
  else
    match Fields text with
    | [] => EmptyString
    | w0 :: rest =>
        let '(sb, currentLine) := fold_left (wrapStep lineLength) rest (EmptyString, w0) in
        sb +:+ currentLine
    end.

(** [currentParagraph] extended by the text of the next segment: a space
    is added unless one is already there on either side. *)
Definition joinText (current text : string) : string :=
  (if negb (HasSuffix current " ") && negb (HasPrefix text " ")
   then current +:+ " " else current) +:+ text.

Section Readable.
Variable upperTable : rune -> bool.

(** [shouldStartNewParagraph] *)
Definition shouldStartNewParagraph (prevText currText : string) : bool :=
  let endsWithPunctuation :=
    HasSuffix (TrimSpace prevText) "."
    || HasSuffix (TrimSpace prevText) "!"
    || HasSuffix (TrimSpace prevText) "?" in
  let startsWithCapital :=
    (0 <? len currText)
    && match runes currText with
       | (r, _) :: _ => IsUpper upperTable r
       | [] => false
       end in
  let containsNotation := Contains prevText "[" || Contains currText "[" in
  (endsWithPunctuation && startsWithCapital) || containsNotation.

(** The loop of [groupIntoParagraphs] from index 1 on: [prev] is
    [transcripts[i-1]]. *)
Fixpoint groupLoop (prev : Transcript) (rest : list Transcript)
         (paragraphs : list string) (currentParagraph : string)
  : list string * string :=
  match rest with
  | [] => (paragraphs, currentParagraph)
  | t :: rest' =>
      if shouldStartNewParagraph (Text prev) (Text t)
      then groupLoop t rest' (paragraphs ++ [currentParagraph]) (Text t)
      else groupLoop t rest' paragraphs (joinText currentParagraph (Text t))
  end.

(** [groupIntoParagraphs] *)
Definition groupIntoParagraphs (transcripts : list Transcript) : list string :=
  match transcripts with
  | [] => []
  | t0 :: rest =>
      let '(paragraphs, currentParagraph) := groupLoop t0 rest [] (Text t0) in
      if 0 <? len currentParagraph
      then paragraphs ++ [currentParagraph]
      else paragraphs
  end.

(** [ReadableFormatter] *)
Record ReadableFormatter := { MaxLineLength : Z; GroupByParagraph : bool }.

(** The loop of [Format] over the paragraphs. *)
Fixpoint writeParagraphs (lineLength : Z) (first : bool) (paragraphs : list string)
         (sb : string) : string :=
  match paragraphs with
  | [] => sb
  | paragraph :: rest =>
      let sb := if first then sb else sb +:+ (nl +:+ nl) in
      writeParagraphs lineLength false rest (sb +:+ wrapText paragraph lineLength)
  end.

(** The loop of [Format] when paragraphs are not grouped beforehand;
    [prev] is [None] at index 0. *)
Fixpoint lineLoop (lineLength : Z) (prev : option Transcript) (rest : list Transcript)
         (sb currentLine : string) : string * string :=
  match rest with
  | [] => (sb, currentLine)
  | t :: rest' =>
      if match prev with
         | Some p => shouldStartNewParagraph (Text p) (Text t)
         | None => false
         end
      then lineLoop lineLength (Some t) rest'
             (sb +:+ wrapText currentLine lineLength +:+ (nl +:+ nl)) (Text t)
      else if 0 <? len currentLine
           then lineLoop lineLength (Some t) rest' sb (joinText currentLine (Text t))
           else lineLoop lineLength (Some t) rest' sb (Text t)
  end.

(** [ReadableFormatter.Format].  The method has a pointer receiver and
    replaces a non-positive [MaxLineLength] by the default: the formatter
    as the call leaves it is returned with the output. *)
Definition ReadableFormatter_Format (f : ReadableFormatter)
           (transcripts : list Transcript) : ReadableFormatter * result string :=
  let f := if MaxLineLength f <=? 0
           then {| MaxLineLength := defaultLineLength;
                   GroupByParagraph := GroupByParagraph f |}
           else f in
  if GroupByParagraph f
  then (f, Ok (writeParagraphs (MaxLineLength f) true
                 (groupIntoParagraphs transcripts) EmptyString))
  else
    let '(sb, currentLine) :=
      lineLoop (MaxLineLength f) None transcripts EmptyString EmptyString in
    (f, Ok (if 0 <? len currentLine
            then sb +:+ wrapText currentLine (MaxLineLength f)
            else sb)).

(** The formatters behind the interface [Formatter]. *)
Inductive Formatter :=
| TextFormatter
| JSONFormatter (Pretty : bool)
| SRTFormatter
| Readable (f : ReadableFormatter).

(** [NewFormatter] *)
Definition NewFormatter (formatType : string) : result Formatter :=
  if String.eqb formatType "text" then Ok TextFormatter
  else if String.eqb formatType "json" then Ok (JSONFormatter true)
  else if String.eqb formatType "srt" then Ok SRTFormatter
  else if String.eqb formatType "readable"
       then Ok (Readable {| MaxLineLength := 80; GroupByParagraph := true |})
       else Err (ErrUnknownFormat formatType).

End Readable.

End Formatters.

(** ** The command line, package [cli] *)

Module Cli.
Import Strings Utf8 Api Formatters.

(** [CLI]: the flags and the argument, as [NewCLI] reads them. *)
Record CLI := {
  Debug : bool;
  LogRequest : bool;
  LanguageCode : string;
  FormatType : string;
  Readable : bool;
  Copy : bool;
  VideoURL : string
}.

(** An error as [Run] meets it: one of the scraper or of [NewFormatter],
    or the one [JSONFormatter.Format] makes of a failure of the encoder. *)
Inductive failure :=
| Failure (e : error)
| FormatJSONFailure.            (* failed to format JSON: %v *)

(** What [Run] writes to the standard error stream. *)
Inductive message :=
| MsgError (f : failure)          (* Error: %v *)
| MsgSolutions (debugHint : bool) (* Possible solutions: 1. 2. 3., and 4. unless Debug *)
| MsgNoContent                    (* Error: No transcript content found *)
| MsgClipboardWarning             (* Warning: Failed to copy to clipboard: %v *)
| MsgCopied.                      (* Copied to clipboard! *)

(** A run of the program: the exit code, the two streams, the environment
    variables set and the text handed to the clipboard. *)
Record run := {
  exitCode : Z;
  stdout : string;
  stderr : list message;
  setenv : list (string * string);
  clipboard : option string
}.

Section Run.
Variable upperTable : rune -> bool.
(** [ytAPI.GetTranscriptsByURL], after the environment variables set. *)
Variable GetTranscriptsByURL :
  list (string * string) -> string -> string -> result (list Transcript).
(** [json.MarshalIndent] (for [true]) and [json.Marshal]. *)
Variable json_Marshal : bool -> list Transcript -> option string.
(** [clipboard.WriteAll]: [true] for a nil error. *)
Variable clipboard_WriteAll : string -> bool.

Definition ofResult (r : result string) : failure + string :=
  match r with
  | Ok output => inr output
  | Err e => inl (Failure e)
  end.

(** [JSONFormatter.Format] *)
Definition JSONFormatter_Format (pretty : bool) (transcripts : list Transcript)
  : failure + string :=
  match json_Marshal pretty transcripts with
  | Some jsonData => inr jsonData
  | None => inl FormatJSONFailure
  end.

(** [formatter.Format], by the formatter behind the interface. *)
Definition Format (formatter : Formatter) (transcripts : list Transcript)
  : failure + string :=
  match formatter with
  | TextFormatter => ofResult (TextFormatter_Format transcripts)
  | JSONFormatter pretty => JSONFormatter_Format pretty transcripts
  | SRTFormatter => ofResult (SRTFormatter_Format transcripts)
  | Formatters.Readable f => ofResult (snd (ReadableFormatter_Format upperTable f transcripts))
  end.

Definition failed (env : list (string * string)) (msgs : list message) : run :=
  {| exitCode := 1; stdout := EmptyString; stderr := msgs; setenv := env;
     clipboard := None |}.

(** [Run] *)
Definition Run (c : CLI) : run :=
  let env := (if Debug c then [("YTTEXT_DEBUG", "1")] else [])
             ++ (if LogRequest c then [("YTTEXT_LOG_REQUEST", "1")] else []) in
  let formatType := if Readable c then "readable"%string else FormatType c in
  match GetTranscriptsByURL env (VideoURL c) (LanguageCode c) with
  | Err e => failed env [MsgError (Failure e); MsgSolutions (negb (Debug c))]
  | Ok transcripts =>
      if (length transcripts =? 0)%nat then failed env [MsgNoContent]
      else
        match NewFormatter formatType with
        | Err e => failed env [MsgError (Failure e)]
        | Ok formatter =>
            match Format formatter transcripts with
            | inl f => failed env [MsgError f]
            | inr output =>
                let copied := Copy c && clipboard_WriteAll output in
                {| exitCode := 0;
                   stdout := output;
                   stderr := if Copy c
                             then if clipboard_WriteAll output
                                  then [MsgCopied] else [MsgClipboardWarning]
                             else [];
                   setenv := env;
                   clipboard := if copied then Some output else None |}
            end
        end
  end.

End Run.

End Cli.

(** * Properties *)

(** ** Facts about strings *)

Module StringFacts.
Import Strings.

Lemma app_cons (c : ascii) (s t : string) : String c s +:+ t = String c (s +:+ t).
Proof. reflexivity. Qed.

Lemma app_nil_l (s : string) : EmptyString +:+ s = s.
Proof. reflexivity. Qed.

Lemma app_nil_r (s : string) : s +:+ EmptyString = s.
Proof. induction s as [|c s IH]; [reflexivity | now rewrite app_cons, IH]. Qed.

Lemma app_assoc (a b c : string) : (a +:+ b) +:+ c = a +:+ (b +:+ c).
Proof. induction a as [|x a IH]; [reflexivity | now rewrite !app_cons, IH]. Qed.

Lemma length_app (a b : string) :
  String.length (a +:+ b) = (String.length a + String.length b)%nat.
Proof. induction a as [|x a IH]; [reflexivity | now rewrite app_cons; simpl; rewrite IH]. Qed.

Lemma HasPrefix_app (p r : string) : HasPrefix (p +:+ r) p = true.
Proof.
  unfold HasPrefix. induction p as [|x p IH].
  - now destruct r.
  - rewrite app_cons. simpl.
    destruct (ascii_dec x x) as [_|ne]; [exact IH | now elim ne].
Qed.

Lemma HasPrefix_inv (s p : string) :
  HasPrefix s p = true -> s = p +:+ drop (String.length p) s.
Proof.
  unfold HasPrefix. revert s. induction p as [|x p IH]; intros s H.
  - now destruct s.
  - destruct s as [|y s]; simpl in H; [discriminate|].
    destruct (ascii_dec x y) as [->|]; [|discriminate].
    rewrite app_cons. simpl. now rewrite <- IH.
Qed.

Lemma drop_app (p r : string) : drop (String.length p) (p +:+ r) = r.
Proof. induction p as [|x p IH]; [now destruct r | exact IH]. Qed.

Lemma HasPrefix_nil (s : string) : HasPrefix s EmptyString = true.
Proof. now destruct s. Qed.

Lemma Contains_cons_false (c : ascii) (s sub : string) :
  Contains (String c s) sub = false ->
  HasPrefix (String c s) sub = false /\ Contains s sub = false.
Proof. simpl. intros H. now apply orb_false_iff in H. Qed.

(** A text without the separator is a single piece. *)
Lemma Split_absent (s sep : string) :
  Contains s sep = false -> Split s sep = [s].
Proof.
  unfold Split. induction s as [|c s IH]; intros H; [reflexivity|].
  apply Contains_cons_false in H as [Hp Hc].
  cbn [splitAux]. rewrite Hp, (IH Hc). reflexivity.
Qed.

Lemma splitAux_length (sep : string) (s : string) (skip : nat) :
  (1 <= length (splitAux sep skip s))%nat.
Proof.
  revert skip. induction s as [|c s IH]; intros skip; cbn [splitAux]; [simpl; lia|].
  destruct skip; [|apply IH].
  destruct (HasPrefix (String c s) sep); [simpl; lia|].
  destruct (splitAux sep 0 s); simpl; lia.
Qed.

(** A text with the separator has at least two pieces. *)
Lemma Split_present (s sep : string) :
  sep <> EmptyString -> Contains s sep = true -> (2 <= length (Split s sep))%nat.
Proof.
  intros Hsep. unfold Split. induction s as [|c s IH]; intros H.
  - simpl in H. destruct sep; [now elim Hsep | discriminate].
  - cbn [splitAux]. cbn [Contains] in H.
    destruct (HasPrefix (String c s) sep) eqn:Hp.
    + pose proof (splitAux_length sep s (String.length sep - 1)). simpl. lia.
    + simpl in H. specialize (IH H).
      destruct (splitAux sep 0 s); simpl in *; lia.
Qed.

(** A text without [old] is left as it is by [ReplaceAll]. *)
Lemma ReplaceAll_absent (s old new : string) :
  Contains s old = false -> ReplaceAll s old new = s.
Proof.
  unfold ReplaceAll. induction s as [|c s IH]; intros H; [reflexivity|].
  apply Contains_cons_false in H as [Hp Hc].
  cbn [replaceAux]. rewrite Hp, (IH Hc). reflexivity.
Qed.

End StringFacts.

(** ** The SRT formatter *)

Module SRTProperties.
Import Strings Strconv Api Formatters StringFacts.

(** The blocks follow the entries, numbered from 1, each ending in a blank
    line. *)
Fixpoint srtBlocks (i : Z) (transcripts : list Transcript) : string :=
  match transcripts with
  | [] => EmptyString
  | t :: rest => srtEntry i t +:+ srtBlocks (i + 1) rest
  end.

Lemma srtLoop_blocks (transcripts : list Transcript) (i : Z) (sb : string) :
  srtLoop i transcripts sb = sb +:+ srtBlocks i transcripts.
Proof.
  revert i sb. induction transcripts as [|t rest IH]; intros i sb; simpl.
  - now rewrite app_nil_r.
  - now rewrite IH, app_assoc.
Qed.

Lemma SRTFormatter_Format_blocks (transcripts : list Transcript) :
  SRTFormatter_Format transcripts = Ok (srtBlocks 0 transcripts).
Proof. unfold SRTFormatter_Format. now rewrite srtLoop_blocks. Qed.

(** The entry of the cue [start="0.0" dur="3.05"]. *)
Definition entry305 : Transcript :=
  {| Text := "Hello"; Duration := 0x1.8666666666666p+1;
     Offset := 0; StartTime := 0 |}.

(** C1: the parser turns the cue with start 0.0 and duration 3.05 into
    [entry305], and for it the SRT formatter writes the block of index 1
    with the time range 00:00:00,000 --> 00:00:03,049: the end of the range
    is one millisecond short of the 00:00:03,050 of the specification,
    because the milliseconds are cut from a fraction that lies just below
    0.05. *)
Theorem C1_srt_end_time_one_millisecond_short :
  parseTranscriptXML
    ("<text start=" +:+ dq +:+ "0.0" +:+ dq +:+ " dur=" +:+ dq +:+ "3.05" +:+ dq
       +:+ ">Hello</text>") = Ok [entry305]
  /\ SRTFormatter_Format [entry305]
     = Ok ("1" +:+ nl +:+ "00:00:00,000 --> 00:00:03,049" +:+ nl
             +:+ "Hello" +:+ nl +:+ nl)
  /\ formatSRTTime (0 + Duration entry305) <> "00:00:03,050"%string.
Proof.
  split; [|split].
  - vm_compute. reflexivity.
  - vm_compute. reflexivity.
  - vm_compute. discriminate.
Qed.

(** Where the fraction of the seconds is a binary fraction, the
    milliseconds are exact. *)
Example srt_time_exact : formatSRTTime 3661.5 = "01:01:01,500"%string.
Proof. vm_compute. reflexivity. Qed.

Example text_time_minutes : formatTime 65 = "1:05"%string.
Proof. vm_compute. reflexivity. Qed.

Example text_time_hours : formatTime 3661 = "1:01:01"%string.
Proof. vm_compute. reflexivity. Qed.

End SRTProperties.

(** ** Identifier extraction *)

Module VideoIDProperties.
Import Strings Api StringFacts.

Section WithURLLibrary.
Variable url_Parse : string -> option URL.
Variable url_ParseQuery : string -> gmap string (list string).

(** Away from the short-link form, a URL of the canonical host with a
    non-empty [v] gives that value. *)
Lemma extractVideoID_canonical (videoURL : string) (u : URL) (v : string) :
  Contains videoURL "youtu.be" = false ->
  url_Parse videoURL = Some u ->
  Host u = "www.youtube.com"%string \/ Host u = "youtube.com"%string ->
  Get (url_ParseQuery (RawQuery u)) "v" = v ->
  v <> EmptyString ->
  extractVideoID url_Parse url_ParseQuery videoURL = Ok v.
Proof.
  intros Hc Hp Hh Hv Hne. unfold extractVideoID. rewrite Hc, Hp.
  assert (String.eqb (Host u) "www.youtube.com" || String.eqb (Host u) "youtube.com" = true) as ->.
  { destruct Hh as [-> | ->]; reflexivity. }
  cbv zeta. rewrite Hv. destruct (String.eqb_spec v EmptyString); [contradiction | reflexivity].
Qed.

(** Away from the short-link form, every other URL is refused. *)
Lemma extractVideoID_other (videoURL : string) :
  Contains videoURL "youtu.be" = false ->
  match url_Parse videoURL with
  | None => True
  | Some u =>
      (Host u <> "www.youtube.com"%string /\ Host u <> "youtube.com"%string)
      \/ Get (url_ParseQuery (RawQuery u)) "v" = EmptyString
  end ->
  exists e, extractVideoID url_Parse url_ParseQuery videoURL = Err e
            /\ kindOf e = InvalidURL.
Proof.
  intros Hc H. unfold extractVideoID. rewrite Hc.
  destruct (url_Parse videoURL) as [u|]; [|now eexists].
  destruct H as [[H1 H2] | H].
  - apply String.eqb_neq in H1, H2. rewrite H1, H2. simpl. now eexists.
  - cbv zeta. rewrite H. destruct (_ || _); simpl; now eexists.
Qed.

(** C2: a canonical-form URL that carries [v=dQw4w9WgXcQ] and, further on,
    the text "youtu.be" is taken for a short link: the result is everything
    after the last slash, not the value of [v].  A short link with a query
    likewise gives the last piece with the query attached. *)
Theorem C2_canonical_url_taken_for_short_link :
  extractVideoID url_Parse url_ParseQuery
    "https://www.youtube.com/watch?v=dQw4w9WgXcQ&feature=youtu.be"
  = Ok "watch?v=dQw4w9WgXcQ&feature=youtu.be"%string
  /\ extractVideoID url_Parse url_ParseQuery "https://youtu.be/dQw4w9WgXcQ?t=42"
     = Ok "dQw4w9WgXcQ?t=42"%string.
Proof. split; vm_compute; reflexivity. Qed.

End WithURLLibrary.

End VideoIDProperties.

(** ** The caption-track locator *)

Module LocatorProperties.
Import Strings Api StringFacts.

Lemma captionsMarker_nonempty : captionsMarker <> EmptyString.
Proof. discriminate. Qed.

(** The test [len(parts) <= 1] holds exactly when the marker is absent. *)
Lemma marker_test (html : string) :
  (length (Split html captionsMarker) <=? 1)%nat = negb (Contains html captionsMarker).
Proof.
  destruct (Contains html captionsMarker) eqn:H; simpl.
  - apply Nat.leb_gt.
    pose proof (Split_present html captionsMarker captionsMarker_nonempty H). lia.
  - now rewrite (Split_absent _ _ H).
Qed.

Section WithJSONLibrary.
Variable json_Unmarshal : string -> option (gmap string Value).

(** C4: without the captions marker in the page, the locator fails; with
    RateLimited when the CAPTCHA marker is in the page, otherwise with
    VideoUnavailable when the playability marker is not, otherwise with
    CaptionsDisabled. *)
Theorem C4_marker_absent_errors (html videoID : string) :
  Contains html captionsMarker = false ->
  exists e,
    extractCaptionsJSON json_Unmarshal html videoID = Err e
    /\ e = (if Contains html captchaMarker then ErrTooManyRequests
            else if Contains html playabilityMarker then ErrTranscriptsDisabled
                 else ErrVideoUnavailable)
    /\ kindOf e = (if Contains html captchaMarker then RateLimited
                   else if Contains html playabilityMarker then CaptionsDisabled
                        else VideoUnavailable).
Proof.
  intros H. unfold extractCaptionsJSON. rewrite marker_test, H. simpl.
  destruct (Contains html captchaMarker); [now eexists|].
  destruct (Contains html playabilityMarker); now eexists.
Qed.

(** With the marker in the page, none of the three checks is made: the
    page goes on to the extraction of the JSON fragment. *)
Lemma marker_present_skips_checks (html videoID : string) :
  Contains html captionsMarker = true ->
  Index (nth 1 (Split html captionsMarker) EmptyString) ("," +:+ dq +:+ "videoDetails") = -1 ->
  extractCaptionsJSON json_Unmarshal html videoID = Err ErrExtractCaptionsJSON.
Proof.
  intros H Hi. unfold extractCaptionsJSON. rewrite marker_test, H. simpl.
  now rewrite Hi.
Qed.

End WithJSONLibrary.

(** The three outcomes, on pages without the captions marker. *)
Lemma C4_witness_captcha :
  Contains ("<div class=" +:+ dq +:+ "g-recaptcha" +:+ dq +:+ "></div>") captionsMarker = false
  /\ exists e,
      extractCaptionsJSON (fun _ => None)
        ("<div class=" +:+ dq +:+ "g-recaptcha" +:+ dq +:+ "></div>") "dQw4w9WgXcQ" = Err e
      /\ e = ErrTooManyRequests /\ kindOf e = RateLimited.
Proof.
  split; [reflexivity|].
  exact (C4_marker_absent_errors (fun _ => None)
           ("<div class=" +:+ dq +:+ "g-recaptcha" +:+ dq +:+ "></div>") "dQw4w9WgXcQ"
           eq_refl).
Defined.

Example marker_absent_unavailable :
  extractCaptionsJSON (fun _ => None) "<html>gone</html>" "dQw4w9WgXcQ"
  = Err ErrVideoUnavailable.
Proof. reflexivity. Qed.

Example marker_absent_disabled :
  extractCaptionsJSON (fun _ => None)
    ("{" +:+ dq +:+ "playabilityStatus" +:+ dq +:+ ":{}}") "dQw4w9WgXcQ"
  = Err ErrTranscriptsDisabled.
Proof. reflexivity. Qed.

End LocatorProperties.

(** ** Entity unescaping *)

Module UnescapeProperties.
Import Strings Api StringFacts.

(** C5: the payload goes through five replacements, of [&amp;], [&lt;],
    [&gt;], [&quot;] and [&#39;] in this order; a payload with the five
    entities comes out with the five characters, other entities stay, and a
    payload with none of the five is left as it is. *)
Theorem C5_unescape_five_entities :
  (forall text,
      unescape text
      = ReplaceAll
          (ReplaceAll
             (ReplaceAll
                (ReplaceAll (ReplaceAll text "&amp;" "&") "&lt;" "<")
                "&gt;" ">")
             "&quot;" dq)
          "&#39;" "'")
  /\ unescape "Q&amp;A: 1 &lt; 2, 3 &gt; 2, &quot;it&#39;s&quot; &nbsp;&copy;"
     = ("Q&A: 1 < 2, 3 > 2, " +:+ dq +:+ "it's" +:+ dq +:+ " &nbsp;&copy;")
  /\ unescape "&amp;" = "&"%string
  /\ unescape "&lt;" = "<"%string
  /\ unescape "&gt;" = ">"%string
  /\ unescape "&quot;" = dq
  /\ unescape "&#39;" = "'"%string
  /\ (forall text,
         Contains text "&amp;" = false ->
         Contains text "&lt;" = false ->
         Contains text "&gt;" = false ->
         Contains text "&quot;" = false ->
         Contains text "&#39;" = false ->
         unescape text = text).
Proof.
  split; [reflexivity|].
  do 6 (split; [vm_compute; reflexivity|]).
  intros text H1 H2 H3 H4 H5. unfold unescape.
  rewrite (ReplaceAll_absent _ _ _ H1), (ReplaceAll_absent _ _ _ H2),
    (ReplaceAll_absent _ _ _ H3), (ReplaceAll_absent _ _ _ H4).
  exact (ReplaceAll_absent _ _ _ H5).
Qed.

Lemma C5_witness :
  unescape "1 & 2 &nbsp; &#169; <i>" = "1 & 2 &nbsp; &#169; <i>"%string.
Proof.
  exact (proj2 (proj2 (proj2 (proj2 (proj2 (proj2 (proj2 C5_unescape_five_entities))))))
           "1 & 2 &nbsp; &#169; <i>" eq_refl eq_refl eq_refl eq_refl eq_refl).
Defined.

(** The order shows on an entity whose replacement completes another one:
    the ampersand that [&amp;] leaves is read again by the later passes. *)
Example unescape_order : unescape "&amp;lt;" = "<"%string.
Proof. vm_compute. reflexivity. Qed.

End UnescapeProperties.

(** ** The matcher *)

Module RegexpFacts.
Import Strings Regexp StringFacts.

(** Every byte of [s] is in the class [c]. *)
Fixpoint allb (c : class) (s : string) : bool :=
  match s with
  | EmptyString => true
  | String x s' => c x && allb c s'
  end.

(** The texts an atom can match. *)
Definition atomText (a : atom) (m : string) : Prop :=
  match a with
  | Lit l => m = l
  | Plus c => m <> EmptyString /\ allb c m = true
  | StarLazy c => allb c m = true
  end.

(** [Matches re w caps]: [w] is a text of [re], piece by piece, and [caps]
    are the pieces of the capturing groups. *)
Inductive Matches : regexp -> string -> list string -> Prop :=
| Matches_nil : Matches [] EmptyString []
| Matches_plain a re m w caps :
    atomText a m -> Matches re w caps -> Matches (Plain a :: re) (m +:+ w) caps
| Matches_capture a re m w caps :
    atomText a m -> Matches re w caps -> Matches (Capture a :: re) (m +:+ w) (m :: caps).

Section AtomsSound.
Context {R : Type}.
Variable k : string -> option R.

Lemma lit_sound l s m r :
  lit k l s = Some (m, r) ->
  exists s', s = m +:+ s' /\ k s' = Some r /\ atomText (Lit l) m.
Proof.
  unfold lit. destruct (HasPrefix s l) eqn:Hp; [|discriminate].
  destruct (k (drop (String.length l) s)) eqn:Hk; [|discriminate].
  intros [= <- <-]. exists (drop (String.length l) s).
  split; [now apply HasPrefix_inv | now split].
Qed.

Lemma starGreedy_sound c s m r :
  starGreedy k c s = Some (m, r) ->
  exists s', s = m +:+ s' /\ k s' = Some r /\ allb c m = true.
Proof.
  revert m r. induction s as [|x s IH]; intros m r; cbn [starGreedy].
  - destruct (k EmptyString) eqn:Hk; [|discriminate].
    intros [= <- <-]. now exists EmptyString.
  - assert (Hstop : match k (String x s) with
                    | Some r0 => Some (EmptyString, r0)
                    | None => None
                    end = Some (m, r) ->
                    exists s', String x s = m +:+ s' /\ k s' = Some r /\ allb c m = true).
    { destruct (k (String x s)) eqn:Hk; [|discriminate].
      intros [= <- <-]. now exists (String x s). }
    destruct (c x) eqn:Hc; [|exact Hstop].
    destruct (starGreedy k c s) as [[m' r']|] eqn:Hg; [|exact Hstop].
    intros [= <- <-]. destruct (IH _ _ eq_refl) as (s' & -> & Hk & Ha).
    exists s'. rewrite app_cons. simpl. now rewrite Hc, Ha.
Qed.

Lemma plusGreedy_sound c s m r :
  plusGreedy k c s = Some (m, r) ->
  exists s', s = m +:+ s' /\ k s' = Some r /\ atomText (Plus c) m.
Proof.
  unfold plusGreedy. destruct s as [|x s]; [discriminate|].
  destruct (c x) eqn:Hc; [|discriminate].
  destruct (starGreedy k c s) as [[m' r']|] eqn:Hg; [|discriminate].
  intros [= <- <-]. destruct (starGreedy_sound _ _ _ _ Hg) as (s' & -> & Hk & Ha).
  exists s'. rewrite app_cons. simpl. rewrite Hc, Ha. repeat split; [exact Hk | discriminate].
Qed.

Lemma starLazy_sound c s m r :
  starLazy k c s = Some (m, r) ->
  exists s', s = m +:+ s' /\ k s' = Some r /\ atomText (StarLazy c) m.
Proof.
  revert m r. induction s as [|x s IH]; intros m r; cbn [starLazy].
  - destruct (k EmptyString) eqn:Hk; [|discriminate].
    intros [= <- <-]. now exists EmptyString.
  - destruct (k (String x s)) eqn:Hk.
    + intros [= <- <-]. now exists (String x s).
    + destruct (c x) eqn:Hc; [|discriminate].
      destruct (starLazy k c s) as [[m' r']|] eqn:Hg; [|discriminate].
      intros [= <- <-]. destruct (IH _ _ eq_refl) as (s' & -> & Hk' & Ha).
      exists s'. rewrite app_cons. simpl in *. now rewrite Hc, Ha.
Qed.

Lemma matchAtom_sound a s m r :
  matchAtom k a s = Some (m, r) ->
  exists s', s = m +:+ s' /\ k s' = Some r /\ atomText a m.
Proof.
  destruct a; simpl; [apply lit_sound | apply plusGreedy_sound | apply starLazy_sound].
Qed.
End AtomsSound.

(** What the matcher returns is a text of the pattern, at the start of the
    input. *)
Lemma matchHere_sound (re : regexp) (s : string) (caps : list string) (rest : string) :
  matchHere re s = Some (caps, rest) ->
  exists w, s = w +:+ rest /\ Matches re w caps.
Proof.
  revert s caps rest. induction re as [|n re IH]; intros s caps rest; cbn [matchHere].
  - intros [= <- <-]. exists EmptyString. split; [reflexivity | constructor].
  - destruct n as [a|a].
    + destruct (matchAtom (matchHere re) a s) as [[m [caps' rest']]|] eqn:Hm; [|discriminate].
      intros [= <- <-].
      destruct (matchAtom_sound _ _ _ _ _ Hm) as (s' & -> & Hk & Ha).
      destruct (IH _ _ _ Hk) as (w & -> & Hw).
      exists (m +:+ w). rewrite app_assoc. split; [reflexivity | now constructor].
    + destruct (matchAtom (matchHere re) a s) as [[m [caps' rest']]|] eqn:Hm; [|discriminate].
      intros [= <- <-].
      destruct (matchAtom_sound _ _ _ _ _ Hm) as (s' & -> & Hk & Ha).
      destruct (IH _ _ _ Hk) as (w & -> & Hw).
      exists (m +:+ w). rewrite app_assoc. split; [reflexivity | now constructor].
Qed.

(** The number of groups of a pattern. *)
Fixpoint groups (re : regexp) : nat :=
  match re with
  | [] => 0
  | Plain _ :: re' => groups re'
  | Capture _ :: re' => S (groups re')
  end.

Lemma Matches_groups re w caps : Matches re w caps -> length caps = groups re.
Proof. induction 1; simpl; congruence. Qed.

Lemma substring_app (w rest : string) :
  String.substring 0 (String.length w) (w +:+ rest) = w.
Proof.
  induction w as [|x w IH]; [now destruct rest|].
  rewrite app_cons. simpl. now rewrite IH.
Qed.

(** [s'] is what is left of [s] from some offset on. *)
Definition suffixOf (s' s : string) : Prop := exists p, s = p +:+ s'.

Lemma suffixOf_refl s : suffixOf s s.
Proof. now exists EmptyString. Qed.

Lemma suffixOf_cons s' c s : suffixOf s' s -> suffixOf s' (String c s).
Proof. intros [p ->]. now exists (String c p). Qed.

(** Every element of [findAll] is a match of the pattern at some offset of
    the input: the matched text, then the groups. *)
Lemma findAll_sound (re : regexp) (s : string) (skip : nat) (m : list string) :
  In m (findAll re skip s) ->
  exists s' w caps rest,
    suffixOf s' s /\ matchHere re s' = Some (caps, rest)
    /\ s' = w +:+ rest /\ Matches re w caps /\ m = w :: caps.
Proof.
  revert skip. induction s as [|c s IH]; intros skip; cbn [findAll]; [intros []|].
  assert (Hrec : forall k, In m (findAll re k s) ->
            exists s' w caps rest,
              suffixOf s' (String c s) /\ matchHere re s' = Some (caps, rest)
              /\ s' = w +:+ rest /\ Matches re w caps /\ m = w :: caps).
  { intros k Hin. destruct (IH _ Hin) as (s' & w & caps & rest & Hs & H).
    exists s', w, caps, rest. split; [now apply suffixOf_cons | exact H]. }
  destruct skip as [|k]; [|apply Hrec].
  destruct (matchHere re (String c s)) as [[caps rest]|] eqn:Hm; [|apply Hrec].
  intros [<- | Hin]; [|eapply Hrec; exact Hin].
  destruct (matchHere_sound _ _ _ _ Hm) as (w & Hw & HM).
  exists (String c s), w, caps, rest.
  repeat split; [apply suffixOf_refl | exact Hm | exact Hw | exact HM |].
  f_equal. rewrite Hw, length_app.
  replace (String.length w + String.length rest - String.length rest)%nat
    with (String.length w) by lia.
  apply substring_app.
Qed.


End RegexpFacts.

(** ** The caption-body parser *)

Module ParserProperties.
Import Strings Strconv Regexp Api StringFacts RegexpFacts.

(** A cue element as it stands in a caption body. *)
Definition cue (start dur payload : string) : string :=
  "<text start=" +:+ dq +:+ start +:+ dq +:+ " dur=" +:+ dq +:+ dur +:+ dq +:+ ">"
  +:+ payload +:+ "</text>".

(** The segment of a match, by the words of the specification: the start
    and the duration parsed, the payload unescaped; none when one of the
    two numbers does not parse. *)
Definition cueSegment (m : list string) : option Transcript :=
  match ParseFloat (nth 1 m EmptyString), ParseFloat (nth 2 m EmptyString) with
  | Some startTime, Some duration =>
      Some {| Text := unescape (nth 3 m EmptyString); Duration := duration;
              Offset := startTime; StartTime := startTime |}
  | _, _ => None
  end.

Lemma textRegex_match_length (xmlData : string) (m : list string) :
  In m (FindAllStringSubmatch textRegex xmlData) -> length m = 4%nat.
Proof.
  intros H. destruct (findAll_sound _ _ _ _ H) as (s' & w & caps & rest & _ & _ & _ & HM & ->).
  simpl. now rewrite (Matches_groups _ _ _ HM).
Qed.

Lemma parseMatch_cueSegment (m : list string) :
  length m = 4%nat -> parseMatch m = cueSegment m.
Proof.
  intros H. unfold parseMatch, cueSegment. rewrite H. simpl.
  destruct (ParseFloat (nth 1 m EmptyString)); [|reflexivity].
  now destruct (ParseFloat (nth 2 m EmptyString)).
Qed.

Lemma parse_loop (ms : list (list string)) (acc : list Transcript) :
  fold_left (fun acc m => match parseMatch m with
                          | Some t => acc ++ [t]
                          | None => acc
                          end) ms acc
  = acc ++ omap parseMatch ms.
Proof.
  revert acc. induction ms as [|m ms IH]; intros acc; csimpl.
  - now rewrite List.app_nil_r.
  - rewrite IH. destruct (parseMatch m); [now rewrite <- List.app_assoc | reflexivity].
Qed.

Lemma omap_ext_In {A B} (f g : A -> option B) (l : list A) :
  (forall x, In x l -> f x = g x) -> omap f l = omap g l.
Proof.
  induction l as [|x l IH]; intros H; csimpl; [reflexivity|].
  rewrite (H x (or_introl eq_refl)), IH; [reflexivity|].
  intros y Hy. apply H. now right.
Qed.

(** The parser, in terms of the matches and their segments. *)
Lemma parseTranscriptXML_spec (xmlData : string) :
  parseTranscriptXML xmlData
  = match FindAllStringSubmatch textRegex xmlData with
    | [] => Err ErrNoTranscriptText
    | ms => match omap cueSegment ms with
            | [] => Err ErrParseFailure
            | segs => Ok segs
            end
    end.
Proof.
  unfold parseTranscriptXML. rewrite parse_loop, List.app_nil_l.
  pose proof (textRegex_match_length xmlData) as Hlen.
  destruct (FindAllStringSubmatch textRegex xmlData) as [|m ms]; [reflexivity|].
  cbn [length Nat.eqb].
  rewrite (omap_ext_In parseMatch cueSegment (m :: ms)).
  - generalize (omap cueSegment (m :: ms)). now intros [|].
  - intros x Hx. apply parseMatch_cueSegment, Hlen, Hx.
Qed.

(** C6: without any match of the cue pattern the parser fails with
    NoTranscriptText; with matches none of which has both numbers parsable
    it fails with ParseFailure; and when some match has both, the result is
    the segments of exactly those matches, in order, the others being left
    out without an error. *)
Theorem C6_parse_errors_and_dropped_cues (xmlData : string) :
  let matches := FindAllStringSubmatch textRegex xmlData in
  (matches = [] ->
   parseTranscriptXML xmlData = Err ErrNoTranscriptText
   /\ kindOf ErrNoTranscriptText = NoTranscriptText)
  /\ (matches <> [] ->
      Forall (fun m => ParseFloat (nth 1 m EmptyString) = None
                       \/ ParseFloat (nth 2 m EmptyString) = None) matches ->
      parseTranscriptXML xmlData = Err ErrParseFailure
      /\ kindOf ErrParseFailure = ParseFailure)
  /\ (Exists (fun m => is_Some (ParseFloat (nth 1 m EmptyString))
                       /\ is_Some (ParseFloat (nth 2 m EmptyString))) matches ->
      parseTranscriptXML xmlData = Ok (omap cueSegment matches)
      /\ length (omap cueSegment matches)
         = length (filter (fun m => is_Some (cueSegment m)) matches)).
Proof.
  intros matches. rewrite parseTranscriptXML_spec. fold matches.
  split; [|split].
  - intros ->. now split.
  - intros Hne Hall. split; [|reflexivity].
    destruct matches as [|m ms] eqn:E; [now elim Hne|]. rewrite <- E in *. clear E Hne.
    assert (omap cueSegment matches = []) as ->; [|now destruct matches].
    induction Hall as [|x l Hx _ IH]; [reflexivity|].
    csimpl. unfold cueSegment at 1.
    destruct Hx as [-> | ->]; [exact IH|].
    now destruct (ParseFloat (nth 1 x EmptyString)).
  - intros Hex. split.
    + assert (omap cueSegment matches <> []) as Hne.
      { induction Hex as [x l [[a Ha] [b Hb]] | x l _ IH]; csimpl.
        - unfold cueSegment at 1. now rewrite Ha, Hb.
        - now destruct (cueSegment x). }
      destruct matches; [now elim Hne|].
      now destruct (omap cueSegment (l :: matches)).
    + clear Hex. induction matches as [|x l IH]; [reflexivity|].
      csimpl. rewrite filter_cons.
      destruct (cueSegment x) eqn:Ex; csimpl.
      * destruct (decide (is_Some (Some t))) as [_|n]; [simpl; now rewrite IH|].
        elim n. now eexists.
      * destruct (decide (is_Some (@None Transcript))) as [[? ?]|_]; [discriminate | exact IH].
Qed.

(** A body with a cue whose start does not parse between two that do. *)
Definition threeCues : string :=
  cue "1.5" "2" "one" +:+ nl +:+ cue "1.2.3" "2" "lost" +:+ nl +:+ cue "4" "2.5" "two".

Lemma threeCues_matches :
  FindAllStringSubmatch textRegex threeCues
  = [ [cue "1.5" "2" "one"; "1.5"; "2"; "one"];
      [cue "1.2.3" "2" "lost"; "1.2.3"; "2"; "lost"];
      [cue "4" "2.5" "two"; "4"; "2.5"; "two"] ]%string.
Proof. vm_compute. reflexivity. Qed.

Lemma C6_witness :
  parseTranscriptXML threeCues
  = Ok [ {| Text := "one"; Duration := 2; Offset := 1.5; StartTime := 1.5 |};
         {| Text := "two"; Duration := 2.5; Offset := 4; StartTime := 4 |} ].
Proof.
  etransitivity.
  - refine (proj1 (proj2 (proj2 (C6_parse_errors_and_dropped_cues threeCues)) _)).
    rewrite threeCues_matches.
    apply Exists_cons_hd. split; eexists; vm_compute; reflexivity.
  - vm_compute. reflexivity.
Defined.

Example no_match_fails : parseTranscriptXML "<transcript></transcript>" = Err ErrNoTranscriptText.
Proof. vm_compute. reflexivity. Qed.

Example no_number_fails :
  parseTranscriptXML (cue "1.2.3" "2" "a" +:+ cue "7" ".." "b") = Err ErrParseFailure.
Proof. vm_compute. reflexivity. Qed.

(** *** The order of the segments *)

(** [InOrder body ws]: the texts [ws] lie in [body] one after the other,
    without overlap, in this order. *)
Inductive InOrder : string -> list string -> Prop :=
| InOrder_nil body : InOrder body []
| InOrder_cons pre w rest ws :
    InOrder rest ws -> InOrder (pre +:+ w +:+ rest) (w :: ws).

Lemma InOrder_later (c : ascii) (body : string) (ws : list string) :
  InOrder body ws -> InOrder (String c body) ws.
Proof.
  intros [body'|pre w rest ws' H]; [constructor|].
  change (String c (pre +:+ w +:+ rest)) with (String c pre +:+ w +:+ rest).
  now constructor.
Qed.

(** The matches are listed in the order in which they lie in the body. *)
Lemma findAll_in_order (re : regexp) (s : string) (skip : nat) :
  InOrder (drop skip s) (map (fun m => nth 0 m EmptyString) (findAll re skip s)).
Proof.
  revert skip. induction s as [|c s IH]; intros skip.
  - destruct skip; constructor.
  - cbn [findAll]. destruct skip as [|k]; [|exact (IH k)].
    change (drop 0 (String c s)) with (String c s).
    destruct (matchHere re (String c s)) as [[caps rest]|] eqn:Hm.
    + destruct (matchHere_sound _ _ _ _ Hm) as (w & Hw & _).
      assert (Hsub : String.substring 0 (String.length (String c s) - String.length rest)
                       (String c s) = w).
      { rewrite Hw, length_app.
        replace (String.length w + String.length rest - String.length rest)%nat
          with (String.length w) by lia.
        apply substring_app. }
      assert (Hn : (String.length (String c s) - String.length rest)%nat = String.length w).
      { rewrite Hw, length_app. lia. }
      cbn [map nth]. rewrite Hsub, Hn.
      destruct w as [|x w].
      * change (String c s) with (String c EmptyString +:+ EmptyString +:+ s).
        constructor. exact (IH 0%nat).
      * rewrite app_cons in Hw. injection Hw as <- ->.
        change (String c (w +:+ rest)) with (EmptyString +:+ String c w +:+ rest).
        constructor. specialize (IH (String.length w)). rewrite drop_app in IH.
        simpl. now rewrite Nat.sub_0_r.
    + apply InOrder_later. exact (IH 0%nat).
Qed.

(** [l] is non-decreasing: an earlier element is less than or equal to a
    later one. *)
Definition nondecreasing (l : list float) : Prop :=
  forall (i j : nat) (a b : float),
    (i < j)%nat -> l !! i = Some a -> l !! j = Some b -> PrimFloat.leb a b = true.

(** The body of the counterexample: the cue that starts at 5 s stands
    before the cue that starts at 1 s. *)
Definition lateCueFirst : string :=
  cue "5" "1" "second" +:+ nl +:+ cue "1" "1" "first".

(** Counterexample to C8 as stated: the two segments of [lateCueFirst]
    come out in body order, the first with the greater start. *)
Lemma C8_counterexample :
  exists segs a b,
    parseTranscriptXML lateCueFirst = Ok segs
    /\ segs !! 0%nat = Some a /\ segs !! 1%nat = Some b
    /\ StartTime a = 5%float /\ StartTime b = 1%float
    /\ PrimFloat.leb (StartTime a) (StartTime b) = false.
Proof.
  exists [ {| Text := "second"; Duration := 1; Offset := 5; StartTime := 5 |};
           {| Text := "first"; Duration := 1; Offset := 1; StartTime := 1 |} ].
  do 2 eexists.
  split; [vm_compute; reflexivity|].
  repeat split; vm_compute; reflexivity.
Qed.

(** The start of a match, when the match yields a segment. *)
Definition cueStart (m : list string) : option float :=
  StartTime <$> cueSegment m.

Lemma map_omap_fmap {A B C} (f : A -> option B) (g : B -> C) (l : list A) :
  map g (omap f l) = omap (fun x => g <$> f x) l.
Proof.
  induction l as [|x l IH]; csimpl; [reflexivity|].
  destruct (f x); csimpl; now rewrite IH.
Qed.

Lemma cueSegment_offset (m : list string) (t : Transcript) :
  cueSegment m = Some t -> Offset t = StartTime t.
Proof.
  unfold cueSegment.
  destruct (ParseFloat (nth 1 m EmptyString)); [|discriminate].
  destruct (ParseFloat (nth 2 m EmptyString)); [|discriminate].
  now intros [= <-].
Qed.

(** C8, amended: the parser keeps the body order.  The matches are listed
    as they lie in the body; the segments are those of the matches whose
    numbers parse, in that order, each with the start (and the equal
    offset) of its cue; so the starts are non-decreasing along the sequence
    exactly when they are along the cues of the body. *)
Theorem C8_segments_in_body_order (xmlData : string) (segs : list Transcript) :
  parseTranscriptXML xmlData = Ok segs ->
  let matches := FindAllStringSubmatch textRegex xmlData in
  InOrder xmlData (map (fun m => nth 0 m EmptyString) matches)
  /\ segs = omap cueSegment matches
  /\ map StartTime segs = omap cueStart matches
  /\ map Offset segs = map StartTime segs
  /\ (nondecreasing (map StartTime segs) <-> nondecreasing (omap cueStart matches)).
Proof.
  intros H matches. rewrite parseTranscriptXML_spec in H. fold matches in H.
  assert (Hsegs : segs = omap cueSegment matches).
  { destruct matches; [discriminate|].
    destruct (omap cueSegment (l :: matches)); [discriminate | now injection H]. }
  assert (Hstarts : map StartTime segs = omap cueStart matches).
  { rewrite Hsegs. apply map_omap_fmap. }
  split; [exact (findAll_in_order textRegex xmlData 0)|].
  split; [exact Hsegs|]. split; [exact Hstarts|]. split.
  - rewrite Hsegs. clear. induction matches as [|m ms IH]; csimpl; [reflexivity|].
    destruct (cueSegment m) as [t|] eqn:E; [|exact IH].
    csimpl. now rewrite IH, (cueSegment_offset _ _ E).
  - now rewrite Hstarts.
Qed.

Lemma C8_witness :
  map StartTime
    [ {| Text := "second"; Duration := 1; Offset := 5; StartTime := 5 |};
      {| Text := "first"; Duration := 1; Offset := 1; StartTime := 1 |} ]
  = omap cueStart (FindAllStringSubmatch textRegex lateCueFirst).
Proof.
  refine (proj1 (proj2 (proj2 (C8_segments_in_body_order lateCueFirst _ _)))).
  vm_compute. reflexivity.
Defined.

(** *** Cues that span lines *)

(** The byte [x] occurs in [s]. *)
Fixpoint hasChar (x : ascii) (s : string) : bool :=
  match s with
  | EmptyString => false
  | String c s' => Ascii.eqb c x || hasChar x s'
  end.

Lemma hasChar_app (x : ascii) (a b : string) :
  hasChar x (a +:+ b) = hasChar x a || hasChar x b.
Proof.
  induction a as [|c a IH]; [reflexivity|].
  rewrite app_cons. simpl. now rewrite IH, orb_assoc.
Qed.





Lemma HasPrefix_char (c x : ascii) (s : string) :
  HasPrefix (String x s) (String c EmptyString) = Ascii.eqb x c.
Proof.
  unfold HasPrefix. cbn [String.prefix]. destruct (ascii_dec c x) as [->|ne].
  - rewrite Ascii.eqb_refl. now destruct s.
  - symmetry. apply Ascii.eqb_neq. congruence.
Qed.

(** No line feed in [s], in the two ways of saying it. *)
Lemma allb_anyChar_Contains (s : string) :
  allb anyChar s = true <-> Contains s nl = false.
Proof.
  induction s as [|x s IH]; [now split|].
  cbn [allb Contains]. unfold nl at 1. rewrite HasPrefix_char. unfold anyChar at 1.
  destruct (Ascii.eqb x LF); simpl; [now split | exact IH].
Qed.
















End ParserProperties.

(** ** Track selection *)

Module TrackProperties.
Import Api.

(** The language code and the URL of an entry of the track list, as far
    as the entry has them (an object with a string in the field). *)
Definition languageOf (track : Value) : option string :=
  asObject track ≫= fun m => m !! "languageCode" ≫= asString.

Definition baseURLOf (track : Value) : option string :=
  asObject track ≫= fun m => m !! "baseUrl" ≫= asString.

Definition hasLanguage (code : string) (track : Value) : bool :=
  match languageOf track with
  | Some c => String.eqb c code
  | None => false
  end.

(** The requested code, "en" standing in for the empty one. *)
Definition requested (languageCode : string) : string :=
  if String.eqb languageCode EmptyString then "en"%string else languageCode.

(** The entry the policy of the specification selects: the first one of
    the requested language and, failing that, the first one of the list. *)
Definition chosen (code : string) (tracks : list Value) : option Value :=
  match List.find (hasLanguage code) tracks with
  | Some t => Some t
  | None => head tracks
  end.

Lemma hasLanguage_object (code : string) (t : Value) :
  hasLanguage code t = true -> exists m, t = VObject m.
Proof.
  unfold hasLanguage, languageOf. destruct t; try discriminate. now eexists.
Qed.

(** The loop of the program finds what [List.find] finds. *)
Lemma findTrack_find (code : string) (tracks : list Value) :
  findTrack code tracks = List.find (hasLanguage code) tracks ≫= asObject.
Proof.
  induction tracks as [|t tracks IH]; [reflexivity|].
  cbn [findTrack List.find]. unfold hasLanguage at 1, languageOf.
  destruct t as [| | | | |m]; simpl; try exact IH.
  destruct (m !! "languageCode" ≫= asString) as [c|]; simpl; [|exact IH].
  destruct (String.eqb c code); [reflexivity | exact IH].
Qed.

(** The first entry for which the test holds. *)
Lemma find_first {A} (f : A -> bool) (l : list A) (x : A) :
  List.find f l = Some x ->
  exists pre post, l = pre ++ x :: post /\ f x = true /\ Forall (fun y => f y = false) pre.
Proof.
  induction l as [|y l IH]; [discriminate|].
  simpl. destruct (f y) eqn:Hy.
  - intros [= ->]. exists [], l. now repeat split.
  - intros H. destruct (IH H) as (pre & post & -> & Hx & Hpre).
    exists (y :: pre), post. repeat split; [exact Hx | now constructor].
Qed.

(** C3: for a track list that is not empty, the track selected is the
    first one whose language code equals the requested code ("en" for an
    empty request) and, when there is none, the first entry of the list.
    The selection succeeds with that entry and its URL when the entry has a
    [baseUrl], and fails with NoSuitableTrack when it has none; an empty
    list fails with NoSuitableTrack too. *)
Theorem C3_track_selection
        (captionsJSON : gmap string Value) (tracks : list Value) (languageCode : string) :
  captionsJSON !! "captionTracks" = Some (VArray tracks) ->
  (tracks = [] ->
   exists e, selectTrack captionsJSON languageCode = Err e /\ kindOf e = NoSuitableTrack)
  /\ (tracks <> [] ->
      exists entry,
        chosen (requested languageCode) tracks = Some entry
        /\ (forall t, List.find (hasLanguage (requested languageCode)) tracks = Some t ->
                      entry = t /\ languageOf entry = Some (requested languageCode))
        /\ (List.find (hasLanguage (requested languageCode)) tracks = None ->
            head tracks = Some entry)
        /\ match baseURLOf entry with
           | Some baseURL =>
               exists m, entry = VObject m
                         /\ selectTrack captionsJSON languageCode = Ok (m, baseURL)
           | None =>
               exists e, selectTrack captionsJSON languageCode = Err e
                         /\ kindOf e = NoSuitableTrack
           end).
Proof.
  intros Hc. unfold selectTrack. rewrite Hc. simpl. fold (requested languageCode).
  set (code := requested languageCode).
  split; [intros ->; now eexists|].
  intros Hne. destruct tracks as [|t0 tracks]; [now elim Hne|]. clear Hne.
  cbn [length Nat.eqb Nat.ltb Nat.leb]. rewrite findTrack_find. unfold chosen.
  destruct (List.find (hasLanguage code) (t0 :: tracks)) as [t|] eqn:Hf.
  - exists t. split; [reflexivity|]. split; [|split; [discriminate|]].
    + intros t' [= <-]. split; [reflexivity|].
      destruct (find_first _ _ _ Hf) as (_ & _ & _ & Ht & _).
      unfold hasLanguage in Ht. destruct (languageOf t) as [c|]; [|discriminate].
      now apply String.eqb_eq in Ht as ->.
    + destruct (find_first _ _ _ Hf) as (_ & _ & _ & Ht & _).
      destruct (hasLanguage_object _ _ Ht) as [m ->]. simpl.
      unfold baseURLOf. simpl.
      destruct (m !! "baseUrl" ≫= asString); now eexists.
  - exists t0. split; [reflexivity|]. split; [discriminate|]. split; [reflexivity|].
    simpl. unfold baseURLOf.
    destruct t0 as [| | | | |m]; simpl; try now eexists.
    destruct (m !! "baseUrl" ≫= asString); now eexists.
Qed.

(** A list whose second entry is the English track. *)
Definition frenchTrack : Value :=
  VObject {[ "languageCode" := VString "fr"; "baseUrl" := VString "https://example.com/fr" ]}.
Definition englishTrack : Value :=
  VObject {[ "languageCode" := VString "en"; "baseUrl" := VString "https://example.com/en" ]}.
Definition twoTracks : gmap string Value :=
  {[ "captionTracks" := VArray [frenchTrack; englishTrack] ]}.

Lemma C3_witness :
  exists entry,
    chosen (requested EmptyString) [frenchTrack; englishTrack] = Some entry
    /\ (forall t, List.find (hasLanguage (requested EmptyString)) [frenchTrack; englishTrack] = Some t ->
                  entry = t /\ languageOf entry = Some (requested EmptyString))
    /\ (List.find (hasLanguage (requested EmptyString)) [frenchTrack; englishTrack] = None ->
        head [frenchTrack; englishTrack] = Some entry)
    /\ match baseURLOf entry with
       | Some baseURL =>
           exists m, entry = VObject m
                     /\ selectTrack twoTracks EmptyString = Ok (m, baseURL)
       | None =>
           exists e, selectTrack twoTracks EmptyString = Err e
                     /\ kindOf e = NoSuitableTrack
       end.
Proof.
  refine (proj2 (C3_track_selection twoTracks [frenchTrack; englishTrack] EmptyString _) _).
  - reflexivity.
  - discriminate.
Defined.

Example select_default_language :
  selectTrack twoTracks EmptyString
  = Ok ({[ "languageCode" := VString "en"; "baseUrl" := VString "https://example.com/en" ]},
        "https://example.com/en"%string).
Proof. reflexivity. Qed.

Example select_absent_language :
  selectTrack twoTracks "de"
  = Ok ({[ "languageCode" := VString "fr"; "baseUrl" := VString "https://example.com/fr" ]},
        "https://example.com/fr"%string).
Proof. reflexivity. Qed.

Example select_without_url :
  selectTrack {[ "captionTracks" := VArray [VObject {[ "languageCode" := VString "en" ]}] ]} "en"
  = Err ErrTrackURL.
Proof. reflexivity. Qed.

Example select_from_empty_list :
  selectTrack {[ "captionTracks" := VArray [] ]} "en" = Err ErrNoCaptionTracks.
Proof. reflexivity. Qed.

End TrackProperties.

(** ** The readable formatter: paragraphs *)

Module ParagraphProperties.
Import Strings Utf8 Unicode Api Formatters StringFacts.


Section Paragraphs.
Variable upperTable : rune -> bool.








Lemma len_pos (s : string) : (0 <? len s) = negb (String.eqb s EmptyString).
Proof. destruct s; [reflexivity|]. unfold len. simpl. apply Z.ltb_lt. lia. Qed.







Definition segment (text : string) : Transcript :=
  {| Text := text; Duration := 1; Offset := 0; StartTime := 0 |}.


End Paragraphs.

Example paragraphs_example :
  groupIntoParagraphs (fun _ => false)
    [segment "[Music]"; segment "so today"; segment " we talk. "; segment "About Go!";
     segment "Right?"; segment "yes"]
  = [ "[Music]"; "so today we talk. "; "About Go!"; "Right? yes" ]%string.
Proof. vm_compute. reflexivity. Qed.

End ParagraphProperties.

(** ** The readable formatter: word wrap *)

Module WrapProperties.
Import Strings Utf8 Unicode Api Formatters StringFacts.

(** *** The runes of a text *)

Lemma substring_drop (n : nat) (s : string) :
  (n <= String.length s)%nat -> String.substring 0 n s +:+ drop n s = s.
Proof.
  revert s. induction n as [|n IH]; intros s H.
  - now destruct s.
  - destruct s as [|c s]; simpl in H; [lia|].
    simpl. rewrite app_cons, IH; [reflexivity | lia].
Qed.

(** A rune takes at least one byte of a text that is not empty, and no
    more bytes than there are. *)
Lemma DecodeRuneInString_width (c : ascii) (s : string) :
  (1 <= snd (DecodeRuneInString (String c s)) <= String.length (String c s))%nat.
Proof.
  unfold DecodeRuneInString.
  repeat match goal with
         | |- context [if ?b then _ else _] => destruct b
         | |- context [match ?x with EmptyString => _ | String _ _ => _ end] => destruct x
         end; simpl; lia.
Qed.

(** Decoding cuts the text into pieces: the bytes of the runes, put
    together again, are the text. *)
Lemma runesAux_bytes (s : string) (skip : nat) :
  bytes (runesAux skip s) = drop skip s.
Proof.
  revert skip. induction s as [|c s IH]; intros skip; [now destruct skip|].
  cbn [runesAux]. destruct skip as [|k]; [|exact (IH k)].
  pose proof (DecodeRuneInString_width c s) as Hw.
  destruct (DecodeRuneInString (String c s)) as [r n]. simpl in Hw.
  cbn [bytes fold_right snd]. fold (bytes (runesAux (n - 1) s)). rewrite IH.
  destruct n as [|n]; [lia|]. simpl drop at 2.
  replace (S n - 1)%nat with n by lia.
  change (drop n s) with (drop (S n) (String c s)).
  apply substring_drop. simpl. lia.
Qed.

Lemma runes_bytes (s : string) : bytes (runes s) = s.
Proof. apply (runesAux_bytes s 0). Qed.

Lemma bytes_app (a b : list (rune * string)) : bytes (a ++ b) = bytes a +:+ bytes b.
Proof.
  induction a as [|[r x] a IH]; [reflexivity|].
  simpl. unfold bytes in *. simpl. now rewrite IH, app_assoc.
Qed.

(** *** The fields of a text *)

Definition spaceRune (rb : rune * string) : Prop := IsSpace (fst rb) = true.
Definition wordRune (rb : rune * string) : Prop := IsSpace (fst rb) = false.

(** [Tokens rs words]: [words] are the maximal runs of runes of [rs] that
    are not white space, in order; all other runes of [rs] are white
    space. *)
Inductive Tokens : list (rune * string) -> list string -> Prop :=
| Tokens_nil : Tokens [] []
| Tokens_space rb rs words :
    spaceRune rb -> Tokens rs words -> Tokens (rb :: rs) words
| Tokens_word run rs words :
    run <> [] -> Forall wordRune run ->
    match rs with [] => True | rb :: _ => spaceRune rb end ->
    Tokens rs words -> Tokens (run ++ rs) (bytes run :: words).

Lemma fieldsAux_tokens (rs : list (rune * string)) :
  Tokens rs (fieldsAux IsSpace None rs)
  /\ forall run, run <> [] -> Forall wordRune run ->
                 Tokens (run ++ rs) (fieldsAux IsSpace (Some (bytes run)) rs).
Proof.
  induction rs as [|[r b] rs [IH1 IH2]].
  - split; [constructor|]. intros run Hne Hrun. simpl.
    constructor; [exact Hne | exact Hrun | exact I | constructor].
  - cbn [fieldsAux]. destruct (IsSpace r) eqn:Hr.
    + split; [now constructor|].
      intros run Hne Hrun. constructor; [exact Hne | exact Hrun | exact Hr |].
      now constructor.
    + assert (Hone : Forall wordRune [(r, b)]) by (now repeat constructor).
      split.
      * assert (Hb : bytes [(r, b)] = b) by (unfold bytes; simpl; apply app_nil_r).
        pose proof (IH2 [(r, b)] ltac:(discriminate) Hone) as H.
        rewrite Hb in H. exact H.
      * intros run Hne Hrun.
        replace (bytes run +:+ b) with (bytes (run ++ [(r, b)])).
        -- replace (run ++ (r, b) :: rs) with ((run ++ [(r, b)]) ++ rs)
             by now rewrite <- List.app_assoc.
           apply IH2; [now destruct run | now apply Forall_app].
        -- rewrite bytes_app. unfold bytes at 2. simpl. now rewrite app_nil_r.
Qed.

Lemma Fields_tokens (text : string) : Tokens (runes text) (Fields text).
Proof. apply fieldsAux_tokens. Qed.

Lemma Fields_only_space (text : string) :
  Forall spaceRune (runes text) -> Fields text = [].
Proof.
  unfold Fields. induction 1 as [|[r b] rs Hr _ IH]; [reflexivity|].
  cbn [fieldsAux]. unfold spaceRune in Hr. simpl in Hr. now rewrite Hr.
Qed.

(** *** The lines *)

(** The words with a separator before each but the first. *)
Fixpoint weaveTail (words seps : list string) : string :=
  match words, seps with
  | w :: words', sep :: seps' => sep +:+ w +:+ weaveTail words' seps'
  | _, _ => EmptyString
  end.

Definition weave (words seps : list string) : string :=
  match words with
  | [] => EmptyString
  | w :: words' => w +:+ weaveTail words' seps
  end.

Definition separator (sep : string) : Prop := sep = " "%string \/ sep = nl.

Lemma wrap_loop (lineLength : Z) (rest : list string) (sb currentLine : string) :
  exists seps,
    length seps = length rest /\ Forall separator seps
    /\ (let '(sb', currentLine') := fold_left (wrapStep lineLength) rest (sb, currentLine) in
        sb' +:+ currentLine') = sb +:+ currentLine +:+ weaveTail rest seps.
Proof.
  revert sb currentLine. induction rest as [|w rest IH]; intros sb currentLine.
  - exists []. simpl. now rewrite app_nil_r.
  - cbn [fold_left]. unfold wrapStep at 2.
    destruct (lineLength <? len currentLine + 1 + len w).
    + destruct (IH (sb +:+ (currentLine +:+ nl)) w) as (seps & Hl & Hs & E).
      exists (nl :: seps). split; [simpl; now rewrite Hl|].
      split; [constructor; [now right | exact Hs]|].
      rewrite E. cbn [weaveTail]. now rewrite !app_assoc.
    + destruct (IH sb (currentLine +:+ (" " +:+ w))) as (seps & Hl & Hs & E).
      exists (" "%string :: seps). split; [simpl; now rewrite Hl|].
      split; [constructor; [now left | exact Hs]|].
      rewrite E. cbn [weaveTail]. now rewrite !app_assoc.
Qed.

(** C10: for a positive line length, the wrapped paragraph is made of the
    fields of the text (its maximal runs of runes that are not white
    space, everything between and around them being white space), with a
    single space or a single line feed between two fields that follow each
    other and nothing before the first or after the last; a text of white
    space only gives the empty string. *)
Theorem C10_wrapText_normalizes_white_space (text : string) (lineLength : Z) :
  0 < lineLength ->
  bytes (runes text) = text
  /\ Tokens (runes text) (Fields text)
  /\ (exists seps,
         length seps = (length (Fields text) - 1)%nat
         /\ Forall separator seps
         /\ wrapText text lineLength = weave (Fields text) seps)
  /\ (Forall spaceRune (runes text) -> wrapText text lineLength = EmptyString).
Proof.
  intros Hpos. split; [apply runes_bytes|]. split; [apply Fields_tokens|].
  assert (Hl : (lineLength <=? 0) = false) by (apply Z.leb_gt; lia).
  unfold wrapText. rewrite Hl. split.
  - destruct (Fields text) as [|w0 rest]; [now exists []|].
    destruct (wrap_loop lineLength rest EmptyString w0) as (seps & Hlen & Hs & E).
    exists seps. split; [simpl; lia|]. split; [exact Hs|].
    destruct (fold_left (wrapStep lineLength) rest (EmptyString, w0)) as [sb cur].
    exact E.
  - intros H. now rewrite (Fields_only_space _ H).
Qed.

(** A paragraph with runs of spaces and a line feed in it. *)
Definition ragged : string := "  the quick   brown" +:+ nl +:+ "fox  ".

Lemma C10_witness :
  bytes (runes ragged) = ragged
  /\ Tokens (runes ragged) (Fields ragged)
  /\ (exists seps,
         length seps = (length (Fields ragged) - 1)%nat
         /\ Forall separator seps
         /\ wrapText ragged 9 = weave (Fields ragged) seps)
  /\ (Forall spaceRune (runes ragged) -> wrapText ragged 9 = EmptyString).
Proof. exact (C10_wrapText_normalizes_white_space ragged 9 eq_refl). Defined.

Example wrap_ragged :
  Fields ragged = ["the"; "quick"; "brown"; "fox"]%string
  /\ wrapText ragged 9 = "the quick" +:+ nl +:+ "brown fox".
Proof. split; vm_compute; reflexivity. Qed.

Example wrap_white_space_only :
  wrapText ("  " +:+ nl +:+ String "009" " ") 80 = EmptyString.
Proof. vm_compute. reflexivity. Qed.

(** [Format] never wraps at a length that is not positive. *)
Lemma Format_line_length_positive
      (upperTable : rune -> bool) (f : ReadableFormatter) (transcripts : list Transcript) :
  0 < MaxLineLength (fst (ReadableFormatter_Format upperTable f transcripts)).
Proof.
  unfold ReadableFormatter_Format.
  destruct (MaxLineLength f <=? 0) eqn:H.
  - cbn [GroupByParagraph MaxLineLength].
    destruct (GroupByParagraph f); [reflexivity|].
    now destruct (lineLoop _ _ _ _ _ _).
  - apply Z.leb_gt in H.
    destruct (GroupByParagraph f); [exact H|].
    now destruct (lineLoop _ _ _ _ _ _).
Qed.

End WrapProperties.

(** * Further properties of the code *)

(** ** The matcher finds what is there *)

Module MatcherCompleteness.
Import Strings Strconv Regexp Api StringFacts RegexpFacts ParserProperties.

(** [lit] and [s] differ at an offset both have. *)
Fixpoint clash (lit s : string) : bool :=
  match lit, s with
  | String a lit', String b s' => if Ascii.eqb a b then clash lit' s' else true
  | _, _ => false
  end.

(** No occurrence of [lit] starts inside [gap], whatever follows [gap]. *)
Fixpoint noStart (lit gap : string) : bool :=
  match gap with
  | EmptyString => true
  | String _ gap' => clash lit gap && noStart lit gap'
  end.

Lemma clash_HasPrefix (lit s rest : string) :
  clash lit s = true -> HasPrefix (s +:+ rest) lit = false.
Proof.
  unfold HasPrefix. revert s. induction lit as [|a lit IH]; intros s H; [now destruct s|].
  destruct s as [|b s]; [discriminate|].
  rewrite app_cons. cbn [clash] in H. cbn [String.prefix].
  destruct (ascii_dec a b) as [->|ne].
  - rewrite Ascii.eqb_refl in H. now apply IH.
  - reflexivity.
Qed.

Lemma noStart_suffix (lit a b : string) :
  noStart lit (a +:+ b) = true -> noStart lit b = true.
Proof.
  induction a as [|c a IH]; [trivial|].
  rewrite app_cons. cbn [noStart]. intros H. apply andb_true_iff in H as [_ H]. now apply IH.
Qed.

Lemma noStart_clash (lit : string) (c : ascii) (b : string) :
  noStart lit (String c b) = true -> clash lit (String c b) = true.
Proof. cbn [noStart]. intros H. now apply andb_true_iff in H as [H _]. Qed.

Section AtomsComplete.
Context {R : Type}.
Variable k : string -> option R.

Lemma lit_here (l rest : string) (r : R) :
  k rest = Some r -> lit k l (l +:+ rest) = Some (l, r).
Proof. intros H. unfold lit. now rewrite HasPrefix_app, drop_app, H. Qed.

Lemma lit_clash (l s : string) : HasPrefix s l = false -> lit k l s = None.
Proof. intros H. unfold lit. now rewrite H. Qed.

(** A greedy run takes all the bytes of the class there are, when the
    rest of the pattern matches behind them. *)
Lemma starGreedy_run (c : class) (m rest : string) (r : R) :
  allb c m = true ->
  match rest with EmptyString => True | String x _ => c x = false end ->
  k rest = Some r ->
  starGreedy k c (m +:+ rest) = Some (m, r).
Proof.
  intros Hm Hrest Hk. induction m as [|x m IH].
  - rewrite app_nil_l. destruct rest as [|y rest]; cbn [starGreedy]; rewrite Hk; [reflexivity|].
    now rewrite Hrest.
  - rewrite app_cons. cbn [starGreedy]. simpl in Hm. apply andb_true_iff in Hm as [Hx Hm].
    now rewrite Hx, (IH Hm).
Qed.

Lemma plusGreedy_run (c : class) (m rest : string) (r : R) :
  m <> EmptyString -> allb c m = true ->
  match rest with EmptyString => True | String x _ => c x = false end ->
  k rest = Some r ->
  plusGreedy k c (m +:+ rest) = Some (m, r).
Proof.
  intros Hne Hm Hrest Hk. destruct m as [|x m]; [now elim Hne|].
  rewrite app_cons. unfold plusGreedy. simpl in Hm. apply andb_true_iff in Hm as [Hx Hm].
  now rewrite Hx, (starGreedy_run c m rest r Hm Hrest Hk).
Qed.

(** A lazy run stops at the first place where the rest of the pattern
    matches. *)
Lemma starLazy_first (c : class) (m rest : string) (r : R) :
  allb c m = true ->
  (forall a x b, m = a +:+ String x b -> k (String x b +:+ rest) = None) ->
  k rest = Some r ->
  starLazy k c (m +:+ rest) = Some (m, r).
Proof.
  intros Hm Hfail Hk. induction m as [|x m IH].
  - rewrite app_nil_l. destruct rest; cbn [starLazy]; now rewrite Hk.
  - rewrite app_cons. cbn [starLazy].
    rewrite <- app_cons, (Hfail EmptyString x m eq_refl).
    simpl in Hm. apply andb_true_iff in Hm as [Hx Hm]. rewrite Hx, IH; [reflexivity | exact Hm |].
    intros a y b ->. exact (Hfail (String x a) y b eq_refl).
Qed.

(** And it stops nowhere later: before the end of a lazy run the rest of
    the pattern does not match. *)
Lemma starLazy_minimal (c : class) (s m : string) (r : R) :
  starLazy k c s = Some (m, r) ->
  forall a x b, m = a +:+ String x b ->
    exists s', s = m +:+ s' /\ k (String x b +:+ s') = None.
Proof.
  revert m r. induction s as [|y s IH]; intros m r; cbn [starLazy].
  - destruct (k EmptyString); [|discriminate].
    intros [= <- <-] a x b H. now destruct a.
  - destruct (k (String y s)) eqn:Hk.
    + intros [= <- <-] a x b H. now destruct a.
    + destruct (c y); [|discriminate].
      destruct (starLazy k c s) as [[m' r']|] eqn:Hl; [|discriminate].
      intros [= <- <-] a x b H.
      destruct (starLazy_sound _ _ _ _ _ Hl) as (s' & Hs & _ & _).
      destruct a as [|z a]; rewrite ?app_cons, ?app_nil_l in H; injection H as <- H.
      * exists s'. subst m'. split; [now rewrite app_cons, <- Hs|].
        rewrite app_cons, <- Hs. exact Hk.
      * destruct (IH _ _ eq_refl a x b H) as (s'' & Hs'' & Hnone).
        exists s''. split; [now rewrite app_cons, <- Hs''| exact Hnone].
Qed.
End AtomsComplete.

(** *** The scan *)

Lemma findAll_skip (re : regexp) (p rest : string) :
  findAll re (String.length p) (p +:+ rest) = findAll re 0 rest.
Proof. induction p as [|c p IH]; [reflexivity | exact IH]. Qed.

(** A match is recorded and the scan goes on behind it. *)
Lemma findAll_match (re : regexp) (c : ascii) (w rest : string) (caps : list string) :
  matchHere re (String c w +:+ rest) = Some (caps, rest) ->
  findAll re 0 (String c w +:+ rest) = (String c w :: caps) :: findAll re 0 rest.
Proof.
  intros H. rewrite app_cons in *. cbn [findAll]. rewrite H.
  assert (Hn : (String.length (String c (w +:+ rest)) - String.length rest)%nat
               = S (String.length w)).
  { simpl. rewrite length_app. lia. }
  rewrite Hn. cbn [String.substring]. rewrite substring_app.
  replace (S (String.length w) - 1)%nat with (String.length w) by lia.
  now rewrite findAll_skip.
Qed.

(** Where the literal the pattern opens with cannot start, the scan
    passes. *)
Lemma findAll_gap (lit : string) (re : regexp) (gap rest : string) :
  noStart lit gap = true ->
  findAll (Plain (Lit lit) :: re) 0 (gap +:+ rest)
  = findAll (Plain (Lit lit) :: re) 0 rest.
Proof.
  induction gap as [|c gap IH]; [reflexivity|].
  intros H. pose proof (noStart_clash _ _ _ H) as Hc.
  cbn [noStart] in H. apply andb_true_iff in H as [_ H].
  rewrite app_cons. cbn [findAll matchHere matchAtom].
  rewrite <- app_cons, (lit_clash _ _ _ (clash_HasPrefix _ _ rest Hc)). now apply IH.
Qed.

(** *** A cue that is well formed is matched *)

Definition closing : string := "</text>".
Definition opening : string := "<text start=" +:+ dq.

(** The parts of a cue element the pattern can read: numbers of digits
    and points, and a payload on one line in which no closing tag
    starts. *)
Definition numeral (s : string) : Prop := s <> EmptyString /\ allb digitOrDot s = true.
Definition plainPayload (p : string) : Prop :=
  allb anyChar p = true /\ noStart closing p = true.

Lemma cue_shape (start dur payload rest : string) :
  cue start dur payload +:+ rest
  = opening +:+ start +:+ (dq +:+ " dur=" +:+ dq) +:+ dur +:+ dq +:+ ">"
    +:+ payload +:+ closing +:+ rest.
Proof. unfold cue, opening, closing. now rewrite !app_assoc. Qed.

Lemma matchHere_plain (a : atom) (re : regexp) (s : string) :
  matchHere (Plain a :: re) s
  = match matchAtom (matchHere re) a s with
    | Some (_, r) => Some r
    | None => None
    end.
Proof. reflexivity. Qed.

Lemma matchHere_capture (a : atom) (re : regexp) (s : string) :
  matchHere (Capture a :: re) s
  = match matchAtom (matchHere re) a s with
    | Some (m, (caps, rest)) => Some (m :: caps, rest)
    | None => None
    end.
Proof. reflexivity. Qed.

Lemma matchHere_cue (start dur payload rest : string) :
  numeral start -> numeral dur -> plainPayload payload ->
  matchHere textRegex (cue start dur payload +:+ rest)
  = Some ([start; dur; payload], rest).
Proof.
  intros [Hs1 Hs2] [Hd1 Hd2] [Hp1 Hp2]. rewrite cue_shape. unfold textRegex.
  fold opening closing.
  set (k8 := matchHere [Plain (Lit closing)]).
  assert (H8 : k8 (closing +:+ rest) = Some ([], rest)).
  { unfold k8. rewrite ?matchHere_plain, ?matchHere_capture; cbn [matchAtom]. now rewrite (lit_here _ closing rest ([], rest)). }
  set (k7 := matchHere [Capture (StarLazy anyChar); Plain (Lit closing)]).
  assert (H7 : k7 (payload +:+ closing +:+ rest) = Some ([payload], rest)).
  { unfold k7. rewrite ?matchHere_plain, ?matchHere_capture; cbn [matchAtom]. fold k8.
    rewrite (starLazy_first k8 anyChar payload (closing +:+ rest) ([], rest) Hp1); [reflexivity| |exact H8].
    intros a x b ->. unfold k8. rewrite ?matchHere_plain, ?matchHere_capture; cbn [matchAtom].
    rewrite lit_clash; [reflexivity|].
    apply clash_HasPrefix, noStart_clash. exact (noStart_suffix _ _ _ Hp2). }
  set (k6 := matchHere (Plain (Lit ">") :: [Capture (StarLazy anyChar); Plain (Lit closing)])).
  assert (H6 : k6 (">" +:+ payload +:+ closing +:+ rest) = Some ([payload], rest)).
  { unfold k6. rewrite ?matchHere_plain, ?matchHere_capture; cbn [matchAtom]. fold k7.
    now rewrite (lit_here k7 ">" _ _ H7). }
  set (k5 := matchHere (Plain (StarLazy anyChar) :: Plain (Lit ">")
                          :: [Capture (StarLazy anyChar); Plain (Lit closing)])).
  assert (H5 : k5 (">" +:+ payload +:+ closing +:+ rest) = Some ([payload], rest)).
  { unfold k5. rewrite ?matchHere_plain, ?matchHere_capture; cbn [matchAtom]. fold k6.
    change (">" +:+ payload +:+ closing +:+ rest)
      with (String ">" (payload +:+ closing +:+ rest)) in *.
    cbn [starLazy]. now rewrite H6. }
  set (k4 := matchHere (Plain (Lit dq) :: Plain (StarLazy anyChar) :: Plain (Lit ">")
                          :: [Capture (StarLazy anyChar); Plain (Lit closing)])).
  assert (H4 : k4 (dq +:+ ">" +:+ payload +:+ closing +:+ rest) = Some ([payload], rest)).
  { unfold k4. rewrite ?matchHere_plain, ?matchHere_capture; cbn [matchAtom]. fold k5. now rewrite (lit_here k5 dq _ _ H5). }
  set (k3 := matchHere (Capture (Plus digitOrDot) :: Plain (Lit dq)
                          :: Plain (StarLazy anyChar) :: Plain (Lit ">")
                          :: [Capture (StarLazy anyChar); Plain (Lit closing)])).
  assert (H3 : k3 (dur +:+ dq +:+ ">" +:+ payload +:+ closing +:+ rest)
               = Some ([dur; payload], rest)).
  { unfold k3. rewrite ?matchHere_plain, ?matchHere_capture; cbn [matchAtom]. fold k4.
    now rewrite (plusGreedy_run k4 digitOrDot dur
                   (dq +:+ ">" +:+ payload +:+ closing +:+ rest) _ Hd1 Hd2 eq_refl H4). }
  set (k2 := matchHere (Plain (Lit (dq +:+ " dur=" +:+ dq)) :: Capture (Plus digitOrDot)
                          :: Plain (Lit dq) :: Plain (StarLazy anyChar) :: Plain (Lit ">")
                          :: [Capture (StarLazy anyChar); Plain (Lit closing)])).
  assert (H2 : k2 ((dq +:+ " dur=" +:+ dq) +:+ dur +:+ dq +:+ ">" +:+ payload
                     +:+ closing +:+ rest) = Some ([dur; payload], rest)).
  { unfold k2. rewrite ?matchHere_plain, ?matchHere_capture; cbn [matchAtom]. fold k3. now rewrite (lit_here k3 _ _ _ H3). }
  rewrite matchHere_plain. cbn [matchAtom].
  erewrite lit_here; [reflexivity|].
  rewrite matchHere_capture. cbn [matchAtom]. fold k2.
  now rewrite (plusGreedy_run k2 digitOrDot start
                 ((dq +:+ " dur=" +:+ dq) +:+ dur +:+ dq +:+ ">" +:+ payload
                    +:+ closing +:+ rest) _ Hs1 Hs2 eq_refl H2).
Qed.

Lemma findAll_match' (re : regexp) (w rest : string) (caps : list string) :
  w <> EmptyString ->
  matchHere re (w +:+ rest) = Some (caps, rest) ->
  findAll re 0 (w +:+ rest) = (w :: caps) :: findAll re 0 rest.
Proof. destruct w as [|c w]; [now intros H | intros _; apply findAll_match]. Qed.

Lemma findAll_textRegex_gap (gap rest : string) :
  noStart opening gap = true ->
  findAll textRegex 0 (gap +:+ rest) = findAll textRegex 0 rest.
Proof. intros H. exact (findAll_gap opening _ gap rest H). Qed.

Lemma cue_nonempty (start dur payload : string) : cue start dur payload <> EmptyString.
Proof. discriminate. Qed.

(** *** Caption bodies *)

(** A cue element and the text that stands before it in the body. *)
Record CueText := {
  gapBefore : string;
  startAttr : string;
  durAttr : string;
  payloadText : string
}.

(** The body made of the cues, one after the other, and a trailer. *)
Fixpoint body (cues : list CueText) (trailer : string) : string :=
  match cues with
  | [] => trailer
  | c :: rest =>
      gapBefore c +:+ cue (startAttr c) (durAttr c) (payloadText c) +:+ body rest trailer
  end.

Definition wellFormed (c : CueText) : Prop :=
  noStart opening (gapBefore c) = true
  /\ numeral (startAttr c) /\ numeral (durAttr c) /\ plainPayload (payloadText c).

Definition matchOf (c : CueText) : list string :=
  [cue (startAttr c) (durAttr c) (payloadText c); startAttr c; durAttr c; payloadText c].

(** What the parser is to make of a cue. *)
Definition segmentOf (c : CueText) (seg : Transcript) : Prop :=
  ParseFloat (startAttr c) = Some (StartTime seg)
  /\ ParseFloat (durAttr c) = Some (Duration seg)
  /\ Offset seg = StartTime seg
  /\ Text seg = unescape (payloadText c).

Lemma body_matches (cues : list CueText) (trailer : string) :
  Forall wellFormed cues -> noStart opening trailer = true ->
  FindAllStringSubmatch textRegex (body cues trailer) = map matchOf cues.
Proof.
  intros Hc Ht. unfold FindAllStringSubmatch.
  induction Hc as [|c cues (Hg & Hs & Hd & Hp) _ IH]; cbn [body map].
  - rewrite <- (app_nil_r trailer). now rewrite findAll_textRegex_gap.
  - rewrite findAll_textRegex_gap by exact Hg.
    rewrite (findAll_match' textRegex _ _ [startAttr c; durAttr c; payloadText c]);
      [now rewrite IH | apply cue_nonempty |].
    now apply matchHere_cue.
Qed.

Lemma segments_of_matches (cues : list CueText) (segs : list Transcript) :
  Forall2 segmentOf cues segs ->
  omap cueSegment (map matchOf cues) = segs.
Proof.
  induction 1 as [|c seg cues segs (Hs & Hd & Ho & Ht) _ IH]; [reflexivity|].
  cbn [map]. csimpl. unfold cueSegment at 1, matchOf at 1 2 3. cbn [nth].
  rewrite Hs, Hd, IH. destruct seg as [t d o st]. simpl in *. now subst.
Qed.

(** X1: the parser reads back a body of well-formed cues: it finds exactly
    the cues, in order, and, when the numbers of every cue parse, returns
    one segment for each cue, in order, with the numbers parsed and the
    payload unescaped. *)
Theorem parse_body_of_cues
        (cues : list CueText) (trailer : string) (segs : list Transcript) :
  Forall wellFormed cues -> noStart opening trailer = true ->
  Forall2 segmentOf cues segs -> cues <> [] ->
  FindAllStringSubmatch textRegex (body cues trailer) = map matchOf cues
  /\ parseTranscriptXML (body cues trailer) = Ok segs.
Proof.
  intros Hc Ht Hsegs Hne. pose proof (body_matches cues trailer Hc Ht) as Hm.
  split; [exact Hm|].
  destruct cues as [|c cues']; [now elim Hne|].
  rewrite parseTranscriptXML_spec, Hm. cbn [map].
  change (matchOf c :: map matchOf cues') with (map matchOf (c :: cues')).
  rewrite (segments_of_matches _ _ Hsegs). now inversion Hsegs.
Qed.

(** A body as the site sends it. *)
Definition sampleCues : list CueText :=
  [ {| gapBefore := "<?xml version=" +:+ dq +:+ "1.0" +:+ dq +:+ " encoding="
                      +:+ dq +:+ "utf-8" +:+ dq +:+ " ?><transcript>";
       startAttr := "0.16"; durAttr := "3.05";
       payloadText := "Tom &amp; Jerry say &quot;hi&quot;" |};
    {| gapBefore := EmptyString; startAttr := "3.21"; durAttr := "2";
       payloadText := "<i>so</i> it&#39;s 1 &lt; 2" |};
    {| gapBefore := nl; startAttr := "5.5"; durAttr := ".5";
       payloadText := EmptyString |} ].

Definition sampleSegments : list Transcript :=
  [ {| Text := "Tom & Jerry say " +:+ dq +:+ "hi" +:+ dq;
       Duration := 0x1.8666666666666p+1; Offset := 0x1.47ae147ae147bp-3;
       StartTime := 0x1.47ae147ae147bp-3 |};
    {| Text := "<i>so</i> it's 1 < 2"; Duration := 2;
       Offset := 0x1.9ae147ae147aep+1; StartTime := 0x1.9ae147ae147aep+1 |};
    {| Text := EmptyString; Duration := 0.5; Offset := 5.5; StartTime := 5.5 |} ].

Lemma sampleCues_wellFormed : Forall wellFormed sampleCues.
Proof.
  repeat constructor; try discriminate; vm_compute; reflexivity.
Qed.

Lemma sampleCues_segments : Forall2 segmentOf sampleCues sampleSegments.
Proof.
  repeat constructor; vm_compute; reflexivity.
Qed.

Lemma parse_body_of_cues_witness :
  FindAllStringSubmatch textRegex (body sampleCues "</transcript>") = map matchOf sampleCues
  /\ parseTranscriptXML (body sampleCues "</transcript>") = Ok sampleSegments.
Proof.
  apply (parse_body_of_cues sampleCues "</transcript>" sampleSegments).
  - exact sampleCues_wellFormed.
  - reflexivity.
  - exact sampleCues_segments.
  - discriminate.
Defined.

End MatcherCompleteness.

(** ** The shape of a match *)

Module MatchShape.
Import Strings Strconv Regexp Api StringFacts RegexpFacts ParserProperties
       MatcherCompleteness.

Lemma matchHere_plain_inv (a : atom) (re : regexp) (s : string)
      (caps : list string) (rest : string) :
  matchHere (Plain a :: re) s = Some (caps, rest) ->
  exists m s', matchAtom (matchHere re) a s = Some (m, (caps, rest))
               /\ s = m +:+ s' /\ matchHere re s' = Some (caps, rest).
Proof.
  rewrite matchHere_plain.
  destruct (matchAtom (matchHere re) a s) as [[m [caps' rest']]|] eqn:Hm; [|discriminate].
  intros [= <- <-]. destruct (matchAtom_sound _ _ _ _ _ Hm) as (s' & Hs & Hk & _).
  now exists m, s'.
Qed.

Lemma matchHere_capture_inv (a : atom) (re : regexp) (s : string)
      (caps : list string) (rest : string) :
  matchHere (Capture a :: re) s = Some (caps, rest) ->
  exists m caps' s', caps = m :: caps'
                     /\ matchAtom (matchHere re) a s = Some (m, (caps', rest))
                     /\ s = m +:+ s' /\ matchHere re s' = Some (caps', rest).
Proof.
  rewrite matchHere_capture.
  destruct (matchAtom (matchHere re) a s) as [[m [caps' rest']]|] eqn:Hm; [|discriminate].
  intros [= <- <-]. destruct (matchAtom_sound _ _ _ _ _ Hm) as (s' & Hs & Hk & _).
  now exists m, caps', s'.
Qed.

Lemma HasPrefix_app_l (p lit s' : string) :
  HasPrefix p lit = true -> HasPrefix (p +:+ s') lit = true.
Proof.
  intros H. rewrite (HasPrefix_inv _ _ H), app_assoc. apply HasPrefix_app.
Qed.

(** A text in which [lit] starts at no offset does not contain it. *)
Lemma no_start_no_occurrence (lit g : string) :
  lit <> EmptyString ->
  (forall a x b, g = a +:+ String x b -> HasPrefix (String x b) lit = false) ->
  Contains g lit = false.
Proof.
  intros Hlit. induction g as [|x g IH]; intros H.
  - destruct lit; [now elim Hlit | reflexivity].
  - cbn [Contains]. rewrite (H EmptyString x g eq_refl). simpl. apply IH.
    intros a y b ->. exact (H (String x a) y b eq_refl).
Qed.

(** The third group of a match ends where the closing tag first
    starts. *)
Lemma textRegex_payload_minimal (s : string) (caps : list string) (rest : string) :
  matchHere textRegex s = Some (caps, rest) ->
  Contains (nth 2 caps EmptyString) closing = false.
Proof.
  unfold textRegex. intros H.
  apply matchHere_plain_inv in H as (m0 & s0 & _ & _ & H).
  apply matchHere_capture_inv in H as (g1 & caps1 & s1 & -> & _ & _ & H).
  apply matchHere_plain_inv in H as (m2 & s2 & _ & _ & H).
  apply matchHere_capture_inv in H as (g2 & caps2 & s3 & -> & _ & _ & H).
  apply matchHere_plain_inv in H as (m4 & s4 & _ & _ & H).
  apply matchHere_plain_inv in H as (m5 & s5 & _ & _ & H).
  apply matchHere_plain_inv in H as (m6 & s6 & _ & _ & H).
  apply matchHere_capture_inv in H as (g3 & caps3 & s7 & -> & Hl & _ & _).
  cbn [nth matchAtom] in *.
  apply no_start_no_occurrence; [discriminate|].
  intros a x b Hg.
  destruct (starLazy_minimal _ _ _ _ _ Hl a x b Hg) as (s' & _ & Hnone).
  destruct (HasPrefix (String x b) closing) eqn:Hp; [|reflexivity].
  rewrite matchHere_plain in Hnone. cbn [matchAtom] in Hnone. unfold lit in Hnone.
  fold closing in Hnone. rewrite (HasPrefix_app_l _ _ s' Hp) in Hnone.
  cbn [matchHere] in Hnone. discriminate.
Qed.

(** The groups of a match, from the pattern. *)
Lemma textRegex_groups (w : string) (caps : list string) :
  Matches textRegex w caps ->
  exists g1 g2 attrs g3,
    caps = [g1; g2; g3]
    /\ w = opening +:+ g1 +:+ (dq +:+ " dur=" +:+ dq) +:+ g2 +:+ dq +:+ attrs +:+ ">"
           +:+ g3 +:+ closing
    /\ numeral g1 /\ numeral g2
    /\ allb anyChar attrs = true /\ allb anyChar g3 = true.
Proof.
  unfold textRegex. intros H.
  repeat match goal with
         | H : Matches (_ :: _) _ _ |- _ => inversion H; subst; clear H
         | H : Matches [] _ _ |- _ => inversion H; subst; clear H
         end.
  repeat match goal with
         | H : atomText (Lit _) _ |- _ => simpl in H; subst
         | H : atomText (Plus _) _ |- _ => simpl in H
         | H : atomText (StarLazy _) _ |- _ => simpl in H
         end.
  eexists _, _, _, _. split; [reflexivity|].
  split; [unfold opening, closing; now rewrite app_nil_r|].
  unfold numeral. tauto.
Qed.

(** X2: every match of the cue pattern is an opening tag with two numbers of
    digits and points (each with at least one byte), further attributes, a
    payload and the closing tag, all on one line; the payload is the third
    group and does not contain the closing tag: it ends at the first one
    behind the opening tag. *)
Theorem match_is_one_cue (xmlData : string) (m : list string) :
  In m (FindAllStringSubmatch textRegex xmlData) ->
  exists g1 g2 attrs g3,
    m = [opening +:+ g1 +:+ (dq +:+ " dur=" +:+ dq) +:+ g2 +:+ dq +:+ attrs +:+ ">"
           +:+ g3 +:+ closing; g1; g2; g3]
    /\ numeral g1 /\ numeral g2
    /\ Contains attrs nl = false /\ Contains g3 nl = false
    /\ Contains g3 closing = false.
Proof.
  intros H.
  destruct (findAll_sound _ _ _ _ H) as (s' & w & caps & rest & _ & Hm & _ & HM & ->).
  pose proof (textRegex_payload_minimal _ _ _ Hm) as Hmin.
  destruct (textRegex_groups _ _ HM) as (g1 & g2 & attrs & g3 & -> & -> & H1 & H2 & Ha & H3).
  exists g1, g2, attrs, g3. split; [reflexivity|].
  split; [exact H1|]. split; [exact H2|].
  split; [now apply allb_anyChar_Contains|].
  split; [now apply allb_anyChar_Contains | exact Hmin].
Qed.

Lemma match_is_one_cue_witness :
  exists g1 g2 attrs g3,
    [cue "1.5" "2" "one"; "1.5"; "2"; "one"]%string
    = [opening +:+ g1 +:+ (dq +:+ " dur=" +:+ dq) +:+ g2 +:+ dq +:+ attrs +:+ ">"
         +:+ g3 +:+ closing; g1; g2; g3]
    /\ numeral g1 /\ numeral g2
    /\ Contains attrs nl = false /\ Contains g3 nl = false
    /\ Contains g3 closing = false.
Proof.
  apply (match_is_one_cue threeCues).
  rewrite threeCues_matches. now left.
Defined.

End MatchShape.

(** ** The JSON fragment of the page *)

Module FragmentProperties.
Import Strings Regexp Api StringFacts RegexpFacts ParserProperties MatcherCompleteness.

Definition videoDetailsMarker : string := "," +:+ dq +:+ "videoDetails".

(** What [extractCaptionsJSON] makes of the decoded fragment. *)
Definition readCaptions (decoded : option (gmap string Value)) : result (gmap string Value) :=
  match decoded with
  | None => Err ErrParseCaptionsJSON
  | Some result =>
      match result !! "playerCaptionsTracklistRenderer" ≫= asObject with
      | None => Err ErrTranscriptsDisabled
      | Some captionsJSON =>
          match captionsJSON !! "captionTracks" with
          | None => Err ErrNoTranscriptAvailable
          | Some _ => Ok captionsJSON
          end
      end
  end.

Lemma splitAux_skip (sep p rest : string) :
  splitAux sep (String.length p) (p +:+ rest) = splitAux sep 0 rest.
Proof. induction p as [|c p IH]; [reflexivity | exact IH]. Qed.

Lemma Split_at_separator (sep rest : string) :
  sep <> EmptyString -> splitAux sep 0 (sep +:+ rest) = EmptyString :: splitAux sep 0 rest.
Proof.
  destruct sep as [|c sep]; [now intros H|]. intros _.
  pose proof (HasPrefix_app (String c sep) rest) as Hp.
  rewrite app_cons in *. cbn [splitAux]. rewrite Hp.
  cbn [String.length]. rewrite Nat.sub_1_r. cbn [Nat.pred].
  now rewrite splitAux_skip.
Qed.

Lemma Split_gap (sep gap rest : string) :
  noStart sep gap = true ->
  splitAux sep 0 (gap +:+ rest)
  = match splitAux sep 0 rest with
    | p :: ps => (gap +:+ p) :: ps
    | [] => [gap]
    end.
Proof.
  induction gap as [|c gap IH]; intros H.
  - rewrite app_nil_l. pose proof (splitAux_length sep rest 0).
    destruct (splitAux sep 0 rest); [simpl in *; lia | reflexivity].
  - pose proof (noStart_clash _ _ _ H) as Hc.
    cbn [noStart] in H. apply andb_true_iff in H as [_ H].
    rewrite app_cons. cbn [splitAux].
    rewrite <- app_cons, (clash_HasPrefix _ _ rest Hc), (IH H).
    pose proof (splitAux_length sep rest 0).
    destruct (splitAux sep 0 rest); [simpl in *; lia | reflexivity].
Qed.

Lemma Index_gap (lit gap rest : string) :
  noStart lit gap = true ->
  Index (gap +:+ lit +:+ rest) lit = Z.of_nat (String.length gap).
Proof.
  induction gap as [|c gap IH]; intros H.
  - rewrite app_nil_l. pose proof (HasPrefix_app lit rest) as Hp.
    destruct (lit +:+ rest); cbn [Index]; now rewrite Hp.
  - pose proof (noStart_clash _ _ _ H) as Hc.
    cbn [noStart] in H. apply andb_true_iff in H as [_ H].
    rewrite app_cons. cbn [Index].
    rewrite <- app_cons, (clash_HasPrefix _ _ (lit +:+ rest) Hc), (IH H).
    assert ((Z.of_nat (String.length gap) <? 0) = false) as -> by (apply Z.ltb_ge; lia).
    cbn [String.length]. lia.
Qed.

(** Every line feed goes. *)
Lemma ReplaceAll_line_feeds (s : string) : Contains (ReplaceAll s nl EmptyString) nl = false.
Proof.
  apply allb_anyChar_Contains. unfold ReplaceAll.
  induction s as [|c s IH]; [reflexivity|].
  cbn [replaceAux]. unfold nl at 1. rewrite HasPrefix_char.
  destruct (Ascii.eqb c LF) eqn:Hc; [exact IH|].
  cbn [allb]. unfold anyChar at 1. now rewrite Hc, IH.
Qed.

Section WithJSONLibrary.
Variable json_Unmarshal : string -> option (gmap string Value).

(** X3: where the page has the captions marker and, behind it, the marker of
    the next field, with no other start of either marker in between or
    before, the text between the two markers, less its line feeds, is what
    goes to the JSON decoder, and the result is read off the decoded
    object. *)
Theorem fragment_between_markers (pre frag post videoID : string) :
  noStart captionsMarker pre = true ->
  noStart captionsMarker (frag +:+ videoDetailsMarker) = true ->
  noStart videoDetailsMarker frag = true ->
  extractCaptionsJSON json_Unmarshal
    (pre +:+ captionsMarker +:+ frag +:+ videoDetailsMarker +:+ post) videoID
  = readCaptions (json_Unmarshal (ReplaceAll frag nl EmptyString)).
Proof.
  intros Hpre Hfrag Hvd. unfold extractCaptionsJSON, Split.
  rewrite (Split_gap _ _ _ Hpre), (Split_at_separator _ _ LocatorProperties.captionsMarker_nonempty).
  rewrite <- (app_assoc frag videoDetailsMarker post), (Split_gap _ _ _ Hfrag).
  pose proof (splitAux_length captionsMarker post 0) as Hl.
  destruct (splitAux captionsMarker 0 post) as [|p ps]; [simpl in Hl; lia|]. clear Hl.
  cbn [length Nat.leb nth]. rewrite app_assoc.
  fold videoDetailsMarker. rewrite (Index_gap _ _ _ Hvd).
  assert ((Z.of_nat (String.length frag) =? -1) = false) as -> by (apply Z.eqb_neq; lia).
  unfold slice_to. rewrite Nat2Z.id, substring_app. reflexivity.
Qed.

(** X4: the JSON decoder is only ever given text without line feeds: two
    decoders that agree on such text give the same result on every
    page. *)
Theorem decoder_sees_no_line_feed
        (json_Unmarshal' : string -> option (gmap string Value)) (html videoID : string) :
  (forall j, Contains j nl = false -> json_Unmarshal j = json_Unmarshal' j) ->
  extractCaptionsJSON json_Unmarshal html videoID
  = extractCaptionsJSON json_Unmarshal' html videoID.
Proof.
  intros H. unfold extractCaptionsJSON.
  destruct (length (Split html captionsMarker) <=? 1)%nat; [reflexivity|].
  destruct (Index _ _ =? -1); [reflexivity|].
  now rewrite (H _ (ReplaceAll_line_feeds _)).
Qed.

(** X5: what a success of the locator guarantees: the page has the captions
    marker, and the object returned is the [playerCaptionsTracklistRenderer]
    of a decoded text and has a [captionTracks] entry. *)
Theorem extractCaptionsJSON_success
        (html videoID : string) (captionsJSON : gmap string Value) :
  extractCaptionsJSON json_Unmarshal html videoID = Ok captionsJSON ->
  Contains html captionsMarker = true
  /\ is_Some (captionsJSON !! "captionTracks")
  /\ exists jsonStr result,
      Contains jsonStr nl = false
      /\ json_Unmarshal jsonStr = Some result
      /\ result !! "playerCaptionsTracklistRenderer" = Some (VObject captionsJSON).
Proof.
  unfold extractCaptionsJSON. rewrite LocatorProperties.marker_test.
  destruct (Contains html captionsMarker); simpl.
  2: { destruct (Contains html captchaMarker); [discriminate|].
       now destruct (Contains html playabilityMarker). }
  destruct (Index _ _ =? -1); [discriminate|].
  set (jsonStr := ReplaceAll _ nl EmptyString).
  destruct (json_Unmarshal jsonStr) as [result|] eqn:Hu; [|discriminate].
  destruct (result !! "playerCaptionsTracklistRenderer") as [v|] eqn:Hr; [|discriminate].
  destruct v as [| | | | |cj]; try discriminate. simpl.
  destruct (cj !! "captionTracks") eqn:Hc; [|discriminate].
  intros [= E]. subst. split; [reflexivity|]. split; [eexists; exact Hc|].
  exists jsonStr, result. split; [apply ReplaceAll_line_feeds | now split].
Qed.

End WithJSONLibrary.

(** A page in the shape the site sends, and a decoder that knows one
    text. *)
Definition samplePre : string :=
  "<html><script>var ytInitialPlayerResponse = {" +:+ dq +:+ "playabilityStatus" +:+ dq
  +:+ ":{}, ".
Definition sampleFragment : string :=
  "{" +:+ dq +:+ "playerCaptionsTracklistRenderer" +:+ dq +:+ ":" +:+ nl
  +:+ "{" +:+ dq +:+ "captionTracks" +:+ dq +:+ ":[]}}".
Definition sampleDecoded : gmap string Value :=
  {[ "playerCaptionsTracklistRenderer" := VObject {[ "captionTracks" := VArray [] ]} ]}.
Definition sampleDecoder (j : string) : option (gmap string Value) :=
  if String.eqb j (ReplaceAll sampleFragment nl EmptyString) then Some sampleDecoded else None.

Lemma fragment_between_markers_witness :
  extractCaptionsJSON sampleDecoder
    (samplePre +:+ captionsMarker +:+ sampleFragment +:+ videoDetailsMarker
       +:+ ":{}};</script></html>") "dQw4w9WgXcQ"
  = readCaptions (sampleDecoder (ReplaceAll sampleFragment nl EmptyString)).
Proof.
  apply (fragment_between_markers sampleDecoder samplePre sampleFragment); reflexivity.
Defined.

Lemma decoder_sees_no_line_feed_witness :
  extractCaptionsJSON sampleDecoder
    (samplePre +:+ captionsMarker +:+ sampleFragment +:+ videoDetailsMarker) "dQw4w9WgXcQ"
  = extractCaptionsJSON
      (fun j => if Contains j nl then None else sampleDecoder j)
      (samplePre +:+ captionsMarker +:+ sampleFragment +:+ videoDetailsMarker) "dQw4w9WgXcQ".
Proof.
  apply (decoder_sees_no_line_feed sampleDecoder).
  intros j Hj. now rewrite Hj.
Defined.

Lemma extractCaptionsJSON_success_witness :
  Contains (samplePre +:+ captionsMarker +:+ sampleFragment +:+ videoDetailsMarker)
           captionsMarker = true
  /\ is_Some (({[ "captionTracks" := VArray [] ]} : gmap string Value) !! "captionTracks")
  /\ exists jsonStr result,
      Contains jsonStr nl = false
      /\ sampleDecoder jsonStr = Some result
      /\ result !! "playerCaptionsTracklistRenderer"
         = Some (VObject {[ "captionTracks" := VArray [] ]}).
Proof.
  apply (extractCaptionsJSON_success sampleDecoder
           (samplePre +:+ captionsMarker +:+ sampleFragment +:+ videoDetailsMarker)
           "dQw4w9WgXcQ").
  reflexivity.
Defined.

End FragmentProperties.

(** ** Short links *)

Module ShortLinkProperties.
Import Strings Api StringFacts ParserProperties.

Lemma hasChar_Contains (c : ascii) (s : string) :
  hasChar c s = false -> Contains s (String c EmptyString) = false.
Proof.
  induction s as [|x s IH]; [reflexivity|].
  cbn [hasChar Contains]. rewrite HasPrefix_char. intros H.
  apply orb_false_iff in H as [-> H]. now apply IH.
Qed.

(** The pieces of a text that ends in a separator and a last piece
    without separator: the last piece comes last. *)
Lemma Split_last_piece (c : ascii) (base id : string) :
  hasChar c id = false ->
  exists p front, Split (base +:+ String c id) (String c EmptyString) = p :: front ++ [id].
Proof.
  intros Hid. unfold Split. induction base as [|b base (p & front & IH)].
  - rewrite app_nil_l. cbn [splitAux]. rewrite HasPrefix_char, Ascii.eqb_refl.
    cbn [String.length Nat.sub].
    pose proof (Split_absent _ _ (hasChar_Contains _ _ Hid)) as E. unfold Split in E.
    rewrite E. now exists EmptyString, [].
  - rewrite app_cons. cbn [splitAux]. rewrite HasPrefix_char.
    cbn [String.length Nat.sub]. rewrite IH.
    destruct (Ascii.eqb b c).
    + now exists EmptyString, (p :: front).
    + now exists (String b p), front.
Qed.

Section WithURLLibrary.
Variable url_Parse : string -> option URL.
Variable url_ParseQuery : string -> gmap string (list string).

(** X6: a URL that mentions the short-link host is never refused: the result
    is what stands behind its last slash, be it empty or followed by a
    query. *)
Theorem short_link_last_piece (base id : string) :
  Contains (base +:+ "/" +:+ id) "youtu.be" = true ->
  hasChar "/" id = false ->
  extractVideoID url_Parse url_ParseQuery (base +:+ "/" +:+ id) = Ok id.
Proof.
  intros Hc Hid. unfold extractVideoID. rewrite Hc.
  change (base +:+ "/" +:+ id) with (base +:+ String "/" id).
  change "/"%string with (String "/" EmptyString).
  destruct (Split_last_piece "/" base id Hid) as (p & front & ->).
  change (p :: front ++ [id]) with ((p :: front) ++ [id]).
  rewrite List.length_app. cbn [length]. rewrite Nat.add_sub.
  f_equal. exact (nth_middle (p :: front) [] id EmptyString).
Qed.

End WithURLLibrary.

Lemma short_link_last_piece_witness :
  extractVideoID (fun _ => None) (fun _ => ∅) "https://youtu.be/dQw4w9WgXcQ" = Ok "dQw4w9WgXcQ"%string
  /\ extractVideoID (fun _ => None) (fun _ => ∅) "https://youtu.be/" = Ok EmptyString.
Proof.
  split.
  - exact (short_link_last_piece (fun _ => None) (fun _ => ∅)
             "https://youtu.be" "dQw4w9WgXcQ" eq_refl eq_refl).
  - exact (short_link_last_piece (fun _ => None) (fun _ => ∅)
             "https://youtu.be" EmptyString eq_refl eq_refl).
Defined.

End ShortLinkProperties.

(** ** Greedy word wrap *)

Module WrapGreedy.
Import Strings Utf8 Unicode Api Formatters StringFacts WrapProperties.

(** The words of a line, joined by single spaces. *)
Definition joinWords (line : list string) : string := String.concat " " line.

(** The words put on lines: [line] is the line being filled. *)
Fixpoint wrapGroups (lineLength : Z) (line : list string) (rest : list string)
  : list (list string) :=
  match rest with
  | [] => [line]
  | w :: rest' =>
      if lineLength <? len (joinWords line) + 1 + len w
      then line :: wrapGroups lineLength [w] rest'
      else wrapGroups lineLength (line ++ [w]) rest'
  end.

(** Every line but the first starts with a word that did not fit on the
    line before. *)
Inductive Greedy (lineLength : Z) : list (list string) -> Prop :=
| Greedy_last line : Greedy lineLength [line]
| Greedy_next line w line' lines :
    lineLength < len (joinWords line) + 1 + len w ->
    Greedy lineLength ((w :: line') :: lines) ->
    Greedy lineLength (line :: (w :: line') :: lines).

Lemma joinWords_snoc (line : list string) (w : string) :
  line <> [] -> joinWords (line ++ [w]) = joinWords line +:+ (" " +:+ w).
Proof.
  unfold joinWords. induction line as [|x line IH]; [now intros H|]. intros _.
  destruct line as [|y line]; [reflexivity|].
  change ((x :: y :: line) ++ [w]) with (x :: ((y :: line) ++ [w])).
  cbn [String.concat app] in *. rewrite IH by discriminate.
  now rewrite !app_assoc.
Qed.

Lemma len_app (a b : string) : len (a +:+ b) = len a + len b.
Proof. unfold len. rewrite length_app. lia. Qed.

Lemma wrapGroups_head (lineLength : Z) (rest : list string) (line : list string) :
  exists more lines, wrapGroups lineLength line rest = (line ++ more) :: lines.
Proof.
  revert line. induction rest as [|w rest IH]; intros line; cbn [wrapGroups].
  - exists [], []. now rewrite List.app_nil_r.
  - destruct (lineLength <? _).
    + now exists [], (wrapGroups lineLength [w] rest); rewrite List.app_nil_r.
    + destruct (IH (line ++ [w])) as (more & lines & ->).
      exists (w :: more), lines. now rewrite <- List.app_assoc.
Qed.

(** The loop of [wrapText] against the lines of words. *)
Lemma wrap_loop_groups (lineLength : Z) (rest : list string) (line : list string)
      (sb : string) :
  line <> [] ->
  (let '(sb', currentLine) :=
     fold_left (wrapStep lineLength) rest (sb, joinWords line) in
   sb' +:+ currentLine)
  = sb +:+ String.concat nl (map joinWords (wrapGroups lineLength line rest)).
Proof.
  revert line sb. induction rest as [|w rest IH]; intros line sb Hne; [reflexivity|].
  cbn [fold_left wrapGroups]. unfold wrapStep at 2.
  destruct (lineLength <? len (joinWords line) + 1 + len w).
  - change w with (joinWords [w]) at 1. rewrite IH by discriminate.
    destruct (wrapGroups_head lineLength rest [w]) as (more & lines & ->).
    cbn [map String.concat]. now rewrite !app_assoc.
  - rewrite <- joinWords_snoc by exact Hne. apply IH. now destruct line.
Qed.

Lemma wrapGroups_concat (lineLength : Z) (rest line : list string) :
  concat (wrapGroups lineLength line rest) = line ++ rest.
Proof.
  revert line. induction rest as [|w rest IH]; intros line; cbn [wrapGroups].
  - simpl. now rewrite List.app_nil_r.
  - destruct (lineLength <? _); cbn [concat]; rewrite IH; [reflexivity|].
    now rewrite <- List.app_assoc.
Qed.

Lemma wrapGroups_fit (lineLength : Z) (rest line : list string) :
  (len (joinWords line) <= lineLength \/ length line = 1%nat) ->
  Forall (fun l => len (joinWords l) <= lineLength \/ length l = 1%nat)
         (wrapGroups lineLength line rest).
Proof.
  revert line. induction rest as [|w rest IH]; intros line H; cbn [wrapGroups].
  - now constructor.
  - destruct (lineLength <? len (joinWords line) + 1 + len w) eqn:E.
    + constructor; [exact H | apply IH; now right].
    + apply IH. left. apply Z.ltb_ge in E.
      destruct line as [|x line].
      * unfold joinWords in *. simpl in *. unfold len in *. simpl in *. lia.
      * rewrite joinWords_snoc by discriminate. rewrite !len_app.
        change (len " ") with 1. lia.
Qed.

Lemma wrapGroups_greedy (lineLength : Z) (rest line : list string) :
  Greedy lineLength (wrapGroups lineLength line rest).
Proof.
  revert line. induction rest as [|w rest IH]; intros line; cbn [wrapGroups].
  - constructor.
  - destruct (lineLength <? len (joinWords line) + 1 + len w) eqn:E; [|apply IH].
    specialize (IH [w]).
    destruct (wrapGroups_head lineLength rest [w]) as (more & lines & Hh).
    rewrite Hh in *. constructor; [now apply Z.ltb_lt | exact IH].
Qed.

(** X7: the wrap is greedy and whole-word: for a positive line length the
    output is the words of the text put on lines, the words of a line
    joined by single spaces and the lines by line feeds; the lines hold
    all the words in order; a line is longer than the line length only
    when it is a single word; and every line but the first starts with a
    word that would not have fitted on the line before. *)
Theorem wrapText_greedy_lines (text : string) (lineLength : Z) (w0 : string)
        (rest : list string) :
  0 < lineLength ->
  Fields text = w0 :: rest ->
  let lines := wrapGroups lineLength [w0] rest in
  wrapText text lineLength = String.concat nl (map joinWords lines)
  /\ concat lines = Fields text
  /\ Forall (fun l => len (joinWords l) <= lineLength \/ length l = 1%nat) lines
  /\ Greedy lineLength lines.
Proof.
  intros Hpos Hf lines.
  assert (Hl : (lineLength <=? 0) = false) by (apply Z.leb_gt; lia).
  split; [|split; [|split]].
  - unfold wrapText. rewrite Hl, Hf.
    pose proof (wrap_loop_groups lineLength rest [w0] EmptyString ltac:(discriminate)) as H.
    change (joinWords [w0]) with w0 in H.
    destruct (fold_left (wrapStep lineLength) rest (EmptyString, w0)) as [sb cur].
    exact H.
  - rewrite Hf. apply wrapGroups_concat.
  - apply wrapGroups_fit. now right.
  - apply wrapGroups_greedy.
Qed.

Lemma wrapText_greedy_lines_witness :
  wrapText ragged 9
  = String.concat nl (map joinWords (wrapGroups 9 ["the"%string] ["quick"; "brown"; "fox"]%string))
  /\ concat (wrapGroups 9 ["the"%string] ["quick"; "brown"; "fox"]%string) = Fields ragged
  /\ Forall (fun l => len (joinWords l) <= 9 \/ length l = 1%nat)
            (wrapGroups 9 ["the"%string] ["quick"; "brown"; "fox"]%string)
  /\ Greedy 9 (wrapGroups 9 ["the"%string] ["quick"; "brown"; "fox"]%string).
Proof.
  exact (wrapText_greedy_lines ragged 9 "the" ["quick"; "brown"; "fox"]%string
           eq_refl eq_refl).
Defined.

Example wrap_long_word :
  wrapText "a incomprehensibilities b" 10
  = "a" +:+ nl +:+ "incomprehensibilities" +:+ nl +:+ "b".
Proof. vm_compute. reflexivity. Qed.

End WrapGreedy.

(** ** The two ways of the readable formatter *)

Module ReadableModes.
Import Strings Utf8 Unicode Api Formatters StringFacts ParagraphProperties.

(** A space in front does not change the fields. *)
Lemma runes_space (s : string) : runes (" " +:+ s) = (32, " "%string) :: runes s.
Proof.
  unfold runes. change (" " +:+ s) with (String " " s). cbn [runesAux].
  change (DecodeRuneInString (String " " s)) with (32, 1%nat).
  cbn [Nat.sub]. now destruct s.
Qed.

Lemma wrapText_space (s : string) (lineLength : Z) :
  0 < lineLength -> wrapText (" " +:+ s) lineLength = wrapText s lineLength.
Proof.
  intros H. unfold wrapText.
  assert ((lineLength <=? 0) = false) as -> by (apply Z.leb_gt; lia).
  unfold Fields. now rewrite runes_space.
Qed.

Lemma HasSuffix_space (c : ascii) (s : string) :
  HasSuffix (" " +:+ String c s) " " = HasSuffix (String c s) " ".
Proof.
  unfold HasSuffix. change (" " +:+ String c s) with (String " " (String c s)).
  cbn [String.length Nat.leb Nat.sub]. rewrite !Nat.sub_0_r.
  reflexivity.
Qed.

(** [g] is [n], possibly with a space in front. *)
Definition upToSpace (g n : string) : Prop := g = n \/ g = " " +:+ n.

Lemma joinText_upToSpace (g n t : string) :
  upToSpace g n ->
  upToSpace (joinText g t) (if 0 <? len n then joinText n t else t).
Proof.
  intros [-> | ->]; destruct n as [|c n].
  - change (0 <? len EmptyString) with false. cbv iota. unfold joinText.
    change (HasSuffix EmptyString " ") with false. cbn [negb andb].
    destruct (HasPrefix t " "); cbn [negb]; [now left | now right].
  - rewrite (len_pos (String c n)). now left.
  - change (0 <? len EmptyString) with false. cbv iota. now right.
  - rewrite (len_pos (String c n)). cbn [String.eqb negb]. right.
    unfold joinText. rewrite HasSuffix_space.
    destruct (negb (HasSuffix (String c n) " ") && negb (HasPrefix t " "));
      now rewrite ?app_assoc.
Qed.

Lemma joinText_nonempty (a t : string) : joinText a t <> EmptyString.
Proof.
  unfold joinText. destruct (HasSuffix a " ") eqn:Ha; cbn [negb andb].
  - destruct a; [discriminate Ha | discriminate].
  - destruct (HasPrefix t " ") eqn:Ht; cbn [negb].
    + destruct t; [discriminate Ht|]. now destruct a.
    + now destruct a.
Qed.

Section Modes.
Variable upperTable : rune -> bool.
Variable lineLength : Z.
Hypothesis lineLength_pos : 0 < lineLength.

Definition blank : string := nl +:+ nl.

(** The wrapped paragraphs, a blank line behind each. *)
Fixpoint each (paragraphs : list string) : string :=
  match paragraphs with
  | [] => EmptyString
  | p :: rest => wrapText p lineLength +:+ blank +:+ each rest
  end.

(** The wrapped paragraphs, a blank line before each. *)
Fixpoint eachAfter (paragraphs : list string) : string :=
  match paragraphs with
  | [] => EmptyString
  | p :: rest => blank +:+ wrapText p lineLength +:+ eachAfter rest
  end.

Lemma each_snoc (ps : list string) (c : string) :
  each (ps ++ [c]) = each ps +:+ wrapText c lineLength +:+ blank.
Proof.
  induction ps as [|p ps IH]; cbn [app each].
  - now rewrite app_nil_r.
  - now rewrite IH, !app_assoc.
Qed.

Lemma eachAfter_snoc (ps : list string) (c : string) :
  eachAfter (ps ++ [c]) = blank +:+ each ps +:+ wrapText c lineLength.
Proof.
  induction ps as [|p ps IH]; cbn [app each eachAfter].
  - now rewrite app_nil_r.
  - now rewrite IH, !app_assoc.
Qed.

Lemma writeParagraphs_later (ps : list string) (sb : string) :
  writeParagraphs lineLength false ps sb = sb +:+ eachAfter ps.
Proof.
  revert sb. induction ps as [|p ps IH]; intros sb; cbn [writeParagraphs eachAfter].
  - now rewrite app_nil_r.
  - rewrite IH. fold blank. now rewrite !app_assoc.
Qed.

Lemma writeParagraphs_snoc (ps : list string) (c : string) :
  writeParagraphs lineLength true (ps ++ [c]) EmptyString
  = each ps +:+ wrapText c lineLength.
Proof.
  destruct ps as [|p ps]; [reflexivity|].
  cbn [app writeParagraphs each]. rewrite writeParagraphs_later, eachAfter_snoc.
  now rewrite !app_assoc.
Qed.

Lemma wrapText_upToSpace (g n : string) :
  upToSpace g n -> wrapText g lineLength = wrapText n lineLength.
Proof. intros [-> | ->]; [reflexivity | now apply wrapText_space]. Qed.

(** The two loops side by side. *)
Lemma loops_in_step (rest : list Transcript) (prev : Transcript)
      (ps : list string) (g n : string) :
  upToSpace g n ->
  exists ps' g' n',
    groupLoop upperTable prev rest ps g = (ps', g')
    /\ lineLoop upperTable lineLength (Some prev) rest (each ps) n = (each ps', n')
    /\ upToSpace g' n'.
Proof.
  revert prev ps g n. induction rest as [|t rest IH]; intros prev ps g n HR.
  - now exists ps, g, n.
  - cbn [groupLoop lineLoop].
    destruct (shouldStartNewParagraph upperTable (Text prev) (Text t)).
    + destruct (IH t (ps ++ [g]) (Text t) (Text t) (or_introl eq_refl))
        as (ps' & g' & n' & Hg & Hl & HR').
      exists ps', g', n'. split; [exact Hg|]. split; [|exact HR'].
      rewrite <- Hl. f_equal. rewrite each_snoc, (wrapText_upToSpace _ _ HR).
      reflexivity.
    + pose proof (joinText_upToSpace g n (Text t) HR) as HR'.
      destruct (0 <? len n); exact (IH t ps _ _ HR').
Qed.

(** The last segment is empty and starts a paragraph. *)
Fixpoint endsInEmptyBreak (prev : Transcript) (rest : list Transcript) : bool :=
  match rest with
  | [] => false
  | t :: rest' =>
      match rest' with
      | [] => shouldStartNewParagraph upperTable (Text prev) (Text t)
              && String.eqb (Text t) EmptyString
      | _ :: _ => endsInEmptyBreak t rest'
      end
  end.

Lemma groupLoop_end (rest : list Transcript) (prev t : Transcript)
      (ps : list string) (g : string) :
  let '(ps', g') := groupLoop upperTable prev (t :: rest) ps g in
  String.eqb g' EmptyString && negb (Nat.eqb (length ps') 0)
  = endsInEmptyBreak prev (t :: rest).
Proof.
  revert prev t ps g. induction rest as [|t2 rest IH]; intros prev t ps g.
  - cbn [groupLoop endsInEmptyBreak].
    destruct (shouldStartNewParagraph upperTable (Text prev) (Text t)); cbn [andb].
    + rewrite List.length_app. cbn [length]. rewrite Nat.add_1_r. cbn [Nat.eqb negb].
      apply andb_true_r.
    + destruct (String.eqb_spec (joinText g (Text t)) EmptyString) as [E|]; [|reflexivity].
      now elim (joinText_nonempty _ _ E).
  - change (endsInEmptyBreak prev (t :: t2 :: rest)) with (endsInEmptyBreak t (t2 :: rest)).
    cbn [groupLoop].
    destruct (shouldStartNewParagraph upperTable (Text prev) (Text t)); apply IH.
Qed.

End Modes.

Definition dangling (upperTable : rune -> bool) (transcripts : list Transcript) : bool :=
  match transcripts with
  | [] => false
  | t0 :: rest => endsInEmptyBreak upperTable t0 rest
  end.

(** X8: grouping the paragraphs beforehand or not gives the same output, but
    for one case: when the last segment is empty and starts a paragraph,
    the formatter that does not group leaves a blank line at the end. *)
Theorem modes_agree (upperTable : rune -> bool) (maxLineLength : Z)
        (transcripts : list Transcript) :
  exists out,
    snd (ReadableFormatter_Format upperTable
           {| MaxLineLength := maxLineLength; GroupByParagraph := true |} transcripts)
    = Ok out
    /\ snd (ReadableFormatter_Format upperTable
              {| MaxLineLength := maxLineLength; GroupByParagraph := false |} transcripts)
       = Ok (out +:+ if dangling upperTable transcripts then nl +:+ nl else EmptyString).
Proof.
  unfold ReadableFormatter_Format. cbn [MaxLineLength GroupByParagraph].
  set (L := if maxLineLength <=? 0 then defaultLineLength else maxLineLength).
  assert (HL : 0 < L).
  { unfold L. destruct (maxLineLength <=? 0) eqn:E; [reflexivity | now apply Z.leb_gt]. }
  assert (EL : forall g, MaxLineLength
                           (if maxLineLength <=? 0
                            then {| MaxLineLength := defaultLineLength; GroupByParagraph := g |}
                            else {| MaxLineLength := maxLineLength; GroupByParagraph := g |}) = L).
  { intros g. unfold L. now destruct (maxLineLength <=? 0). }
  assert (EG : forall g, GroupByParagraph
                           (if maxLineLength <=? 0
                            then {| MaxLineLength := defaultLineLength; GroupByParagraph := g |}
                            else {| MaxLineLength := maxLineLength; GroupByParagraph := g |}) = g).
  { intros g. now destruct (maxLineLength <=? 0). }
  rewrite !EG, !EL. cbv iota.
  destruct transcripts as [|t0 rest].
  { exists EmptyString. now split. }
  cbn [groupIntoParagraphs lineLoop dangling].
  change (0 <? len EmptyString) with false. cbv iota.
  destruct (loops_in_step upperTable L HL rest t0 [] (Text t0) (Text t0) (or_introl eq_refl))
    as (ps & g & n & Hg & Hl & HR).
  cbn [each] in Hl. rewrite Hg, Hl. cbn [snd].
  destruct rest as [|t rest].
  - (* a single segment *)
    cbn [groupLoop] in Hg. cbn [lineLoop] in Hl. injection Hg as <- <-. injection Hl as <-.
    cbn [endsInEmptyBreak each].
    destruct (0 <? len (Text t0)); eexists; (split; [reflexivity|]);
      now rewrite app_nil_r.
  - pose proof (groupLoop_end upperTable rest t0 t [] (Text t0)) as He.
    rewrite Hg in He. rewrite <- He. clear He Hg Hl.
    rewrite !len_pos.
    destruct (String.eqb_spec g EmptyString) as [->|Hgne]; cbn [negb andb].
    + (* the last paragraph is empty *)
      assert (n = EmptyString) as ->.
      { destruct HR as [<- | E]; [reflexivity | discriminate E]. }
      cbn [String.eqb negb].
      destruct ps as [|p ps] using rev_ind.
      * exists EmptyString. now split.
      * exists (each L ps +:+ wrapText p L). rewrite writeParagraphs_snoc.
        split; [reflexivity|]. rewrite List.length_app. cbn [length].
        rewrite Nat.add_1_r. cbn [Nat.eqb negb].
        rewrite each_snoc. unfold blank. now rewrite !app_assoc.
    + exists (each L ps +:+ wrapText g L). rewrite writeParagraphs_snoc.
      split; [reflexivity|]. rewrite app_nil_r.
      destruct (String.eqb_spec n EmptyString) as [->|_]; cbn [negb].
      * destruct HR as [-> | ->]; [now elim Hgne|].
        rewrite (wrapText_space EmptyString L HL).
        unfold wrapText. assert ((L <=? 0) = false) as -> by (apply Z.leb_gt; lia).
        cbn. now rewrite app_nil_r.
      * now rewrite (wrapText_upToSpace L HL _ _ HR).
Qed.

Example modes_differ :
  snd (ReadableFormatter_Format (fun _ => false)
         {| MaxLineLength := 80; GroupByParagraph := true |}
         [segment "[Music]"; segment EmptyString]) = Ok "[Music]"%string
  /\ snd (ReadableFormatter_Format (fun _ => false)
            {| MaxLineLength := 80; GroupByParagraph := false |}
            [segment "[Music]"; segment EmptyString]) = Ok ("[Music]" +:+ nl +:+ nl).
Proof. split; vm_compute; reflexivity. Qed.

End ReadableModes.

(** ** What the parser and the scraper hand on *)

Module SegmentInvariants.
Import Strings Strconv Regexp Api StringFacts RegexpFacts ParserProperties MatchShape.

(** A byte that is neither in the text nor in the replacement is not in
    the result of a replacement. *)
Lemma replaceAux_hasChar (x : ascii) (old new : string) (skip : nat) (s : string) :
  hasChar x new = false -> hasChar x s = false ->
  hasChar x (replaceAux old new skip s) = false.
Proof.
  intros Hn. revert skip. induction s as [|c s IH]; intros skip H; [reflexivity|].
  cbn [hasChar] in H. apply orb_false_iff in H as [Hc Hs].
  cbn [replaceAux]. destruct skip; [|now apply IH].
  destruct (HasPrefix (String c s) old).
  - rewrite hasChar_app, Hn. now apply IH.
  - cbn [hasChar]. rewrite Hc. now apply IH.
Qed.

(** Unescaping brings in no byte other than the five characters. *)
Lemma unescape_hasChar (x : ascii) (text : string) :
  hasChar x ("&<>" +:+ dq +:+ "'") = false ->
  hasChar x text = false -> hasChar x (unescape text) = false.
Proof.
  intros Hx H. cbn in Hx.
  repeat (apply orb_false_iff in Hx as [? Hx]).
  unfold unescape, ReplaceAll.
  repeat (apply replaceAux_hasChar; [cbn; rewrite ?orb_false_r; assumption|]).
  exact H.
Qed.

Lemma hasChar_line_feed (s : string) : hasChar LF s = false <-> Contains s nl = false.
Proof.
  induction s as [|c s IH]; [now split|].
  cbn [hasChar Contains]. unfold nl at 1. rewrite HasPrefix_char.
  destruct (Ascii.eqb c LF); simpl; [now split | exact IH].
Qed.

(** The segment made of a match lies on one line and has its offset equal
    to its start. *)
Lemma cueSegment_invariants (xmlData : string) (m : list string) (t : Transcript) :
  In m (FindAllStringSubmatch textRegex xmlData) -> cueSegment m = Some t ->
  Offset t = StartTime t /\ Contains (Text t) nl = false.
Proof.
  intros Hin Hseg.
  destruct (findAll_sound _ _ _ _ Hin) as (s' & w & caps & rest & _ & _ & _ & HM & ->).
  destruct (textRegex_groups _ _ HM) as (g1 & g2 & attrs & g3 & -> & _ & _ & _ & _ & H3).
  unfold cueSegment in Hseg. cbn [nth] in Hseg.
  destruct (ParseFloat g1); [|discriminate].
  destruct (ParseFloat g2); [|discriminate].
  injection Hseg as <-. cbn [Offset StartTime Text]. split; [reflexivity|].
  apply hasChar_line_feed, unescape_hasChar; [reflexivity|].
  now apply hasChar_line_feed, allb_anyChar_Contains.
Qed.

Lemma omap_invariant {A B} (f : A -> option B) (P : B -> Prop) (l : list A) :
  (forall x y, In x l -> f x = Some y -> P y) -> Forall P (omap f l).
Proof.
  induction l as [|x l IH]; intros H; csimpl; [constructor|].
  assert (Forall P (omap f l)) as Hl.
  { apply IH. intros a b Ha. apply H. now right. }
  destruct (f x) as [y|] eqn:E; [|exact Hl].
  constructor; [|exact Hl]. apply (H x y); [now left | exact E].
Qed.

(** What holds of a list of segments the parser returns. *)
Definition sound (transcripts : list Transcript) : Prop :=
  transcripts <> []
  /\ Forall (fun t => Offset t = StartTime t /\ Contains (Text t) nl = false) transcripts.

Lemma parseTranscriptXML_sound (xmlData : string) (transcripts : list Transcript) :
  parseTranscriptXML xmlData = Ok transcripts -> sound transcripts.
Proof.
  rewrite parseTranscriptXML_spec.
  pose proof (cueSegment_invariants xmlData) as Hinv.
  destruct (FindAllStringSubmatch textRegex xmlData) as [|m ms]; [discriminate|].
  pose proof (omap_invariant cueSegment _ (m :: ms) Hinv) as Hall.
  destruct (omap cueSegment (m :: ms)) as [|t ts]; [discriminate|].
  intros [= <-]. split; [discriminate | exact Hall].
Qed.

(** X9: the parser never succeeds with an empty list, and every segment it
    returns has its offset equal to its start time and a text without line
    feed. *)
Theorem parsed_segments (xmlData : string) (transcripts : list Transcript) :
  parseTranscriptXML xmlData = Ok transcripts ->
  transcripts <> []
  /\ Forall (fun t => Offset t = StartTime t /\ Contains (Text t) nl = false) transcripts.
Proof. exact (parseTranscriptXML_sound xmlData transcripts). Qed.

Lemma parsed_segments_witness :
  MatcherCompleteness.sampleSegments <> []
  /\ Forall (fun t => Offset t = StartTime t /\ Contains (Text t) nl = false)
            MatcherCompleteness.sampleSegments.
Proof.
  apply (parsed_segments (MatcherCompleteness.body MatcherCompleteness.sampleCues "</transcript>")).
  vm_compute. reflexivity.
Defined.

Section WithLibraries.
Variable url_Parse : string -> option URL.
Variable url_ParseQuery : string -> gmap string (list string).
Variable json_Unmarshal : string -> option (gmap string Value).
Variable http_NewRequest : string -> string -> option Request.
Variable httpClient_Do : Request -> option Response.

Lemma fetchTranscripts_parsed (videoID languageCode : string) (transcripts : list Transcript) :
  fetchTranscripts json_Unmarshal http_NewRequest httpClient_Do videoID languageCode
  = Ok transcripts ->
  exists xmlData, parseTranscriptXML xmlData = Ok transcripts.
Proof.
  unfold fetchTranscripts.
  destruct (fetchVideoHTML _ _ _) as [html|]; [|discriminate]. cbn [mbind result_bind].
  destruct (extractCaptionsJSON _ _ _) as [cj|]; [|discriminate]. cbn [mbind result_bind].
  destruct (selectTrack _ _) as [target|]; [|discriminate]. cbn [mbind result_bind].
  destruct (_ ≫= httpClient_Do) as [resp|]; [|discriminate].
  destruct (negb _); [discriminate|].
  destruct (Body resp) as [xmlData|]; [|discriminate].
  intros H. now exists xmlData.
Qed.

Lemma GetTranscriptsByURL_sound (videoURL languageCode : string)
      (transcripts : list Transcript) :
  GetTranscriptsByURL url_Parse url_ParseQuery json_Unmarshal http_NewRequest httpClient_Do
    videoURL languageCode = Ok transcripts ->
  sound transcripts.
Proof.
  unfold GetTranscriptsByURL. intros H.
  destruct (extractVideoID _ _ _) as [v|]; [|discriminate].
  destruct (fetchTranscripts_parsed _ _ _ H) as [xmlData Hx].
  exact (parseTranscriptXML_sound _ _ Hx).
Qed.

(** X10: whatever the libraries and the network answer, a call of the scraper
    that succeeds returns at least one segment, and every segment has its
    offset equal to its start time and a text without line feed. *)
Theorem scraped_segments (videoURL videoID languageCode : string)
        (transcripts : list Transcript) :
  GetTranscriptsByURL url_Parse url_ParseQuery json_Unmarshal http_NewRequest httpClient_Do
    videoURL languageCode = Ok transcripts
  \/ GetTranscripts json_Unmarshal http_NewRequest httpClient_Do videoID languageCode
     = Ok transcripts ->
  transcripts <> []
  /\ Forall (fun t => Offset t = StartTime t /\ Contains (Text t) nl = false) transcripts.
Proof.
  intros [H|H].
  - exact (GetTranscriptsByURL_sound _ _ _ H).
  - destruct (fetchTranscripts_parsed _ _ _ H) as [xmlData Hx].
    exact (parseTranscriptXML_sound _ _ Hx).
Qed.

End WithLibraries.

(** A network that serves one video: its page, and the caption body of
    its one track. *)
Definition sampleTrackURL : string :=
  "https://www.youtube.com/api/timedtext?v=dQw4w9WgXcQ&lang=en".

Definition sampleTracks : string :=
  "{" +:+ dq +:+ "playerCaptionsTracklistRenderer" +:+ dq +:+ ":{" +:+ dq
  +:+ "captionTracks" +:+ dq +:+ ":[{" +:+ dq +:+ "baseUrl" +:+ dq +:+ ":" +:+ dq
  +:+ sampleTrackURL +:+ dq +:+ "," +:+ dq +:+ "languageCode" +:+ dq +:+ ":" +:+ dq
  +:+ "en" +:+ dq +:+ "}]}}".

Definition samplePage : string :=
  FragmentProperties.samplePre +:+ captionsMarker +:+ sampleTracks
  +:+ FragmentProperties.videoDetailsMarker +:+ ":{}};</script></html>".

Definition sampleUnmarshal (j : string) : option (gmap string Value) :=
  if String.eqb j sampleTracks
  then Some {[ "playerCaptionsTracklistRenderer" :=
                 VObject {[ "captionTracks" :=
                              VArray [ VObject {[ "baseUrl" := VString sampleTrackURL;
                                                  "languageCode" := VString "en" ]} ] ]} ]}
  else None.

Definition sampleNewRequest (method urlPath : string) : option Request :=
  Some {| Method := method; URLPath := urlPath; Header := ∅ |}.

Definition sampleDo (req : Request) : option Response :=
  if String.eqb (URLPath req) "https://www.youtube.com/watch?v=dQw4w9WgXcQ"
  then Some {| StatusCode := 200; Body := Some samplePage |}
  else if String.eqb (URLPath req) sampleTrackURL
       then Some {| StatusCode := 200;
                    Body := Some (MatcherCompleteness.body MatcherCompleteness.sampleCues
                                    "</transcript>") |}
       else Some {| StatusCode := 404; Body := None |}.

Lemma sample_scraped :
  GetTranscriptsByURL (fun _ => None) (fun _ => ∅) sampleUnmarshal sampleNewRequest sampleDo
    "https://youtu.be/dQw4w9WgXcQ" "en"
  = Ok MatcherCompleteness.sampleSegments.
Proof. vm_compute. reflexivity. Qed.

Lemma scraped_segments_witness :
  MatcherCompleteness.sampleSegments <> []
  /\ Forall (fun t => Offset t = StartTime t /\ Contains (Text t) nl = false)
            MatcherCompleteness.sampleSegments.
Proof.
  apply (scraped_segments (fun _ => None) (fun _ => ∅) sampleUnmarshal sampleNewRequest
           sampleDo "https://youtu.be/dQw4w9WgXcQ" "dQw4w9WgXcQ" "en").
  left. exact sample_scraped.
Defined.

End SegmentInvariants.

(** ** The text and SRT outputs, line by line *)

Module OutputLines.
Import Strings Strconv Api Formatters StringFacts ParserProperties.
Import MatcherCompleteness FragmentProperties SegmentInvariants SRTProperties.

Lemma noStart_line_feed (s : string) : hasChar LF s = false -> noStart nl s = true.
Proof.
  induction s as [|c s IH]; [reflexivity|].
  cbn [hasChar noStart]. intros H. apply orb_false_iff in H as [Hc Hs].
  unfold nl at 1. cbn [clash]. rewrite Ascii.eqb_sym, Hc. now apply IH.
Qed.

Lemma string_of_uint_line_feed (u : Decimal.uint) :
  hasChar LF (NilEmpty.string_of_uint u) = false.
Proof. induction u; cbn; assumption || reflexivity. Qed.

Lemma d_line_feed (n : Z) : hasChar LF (Fmt.d n) = false.
Proof.
  unfold Fmt.d, Fmt.digits. destruct (n <? 0).
  - rewrite hasChar_app. now rewrite string_of_uint_line_feed.
  - apply string_of_uint_line_feed.
Qed.

Lemma zeros_line_feed (n : nat) : hasChar LF (Fmt.zeros n) = false.
Proof. induction n as [|n IH]; [reflexivity | exact IH]. Qed.

Lemma d0_line_feed (w : nat) (n : Z) : hasChar LF (Fmt.d0 w n) = false.
Proof.
  unfold Fmt.d0, Fmt.digits. cbv zeta.
  rewrite !hasChar_app, zeros_line_feed, string_of_uint_line_feed.
  now destruct (n <? 0).
Qed.

Lemma formatTime_line_feed (seconds : float) : hasChar LF (formatTime seconds) = false.
Proof.
  unfold formatTime. cbv zeta. destruct (0 <? _).
  - now rewrite !hasChar_app, d_line_feed, !d0_line_feed.
  - now rewrite !hasChar_app, d_line_feed, d0_line_feed.
Qed.

Lemma formatSRTTime_line_feed (seconds : float) : hasChar LF (formatSRTTime seconds) = false.
Proof. unfold formatSRTTime. cbv zeta. now rewrite !hasChar_app, !d0_line_feed. Qed.

(** A line and its line feed in front of a text: the line is the first
    piece. *)
Lemma Split_line (line rest : string) :
  hasChar LF line = false -> Split (line +:+ nl +:+ rest) nl = line :: Split rest nl.
Proof.
  intros H. unfold Split.
  rewrite (Split_gap _ _ _ (noStart_line_feed _ H)).
  rewrite Split_at_separator by discriminate.
  now rewrite app_nil_r.
Qed.

(** The line the text formatter writes for an entry, without its line
    feed. *)
Definition textLine (t : Transcript) : string :=
  "[" +:+ formatTime (StartTime t) +:+ "] " +:+ Text t.

Lemma text_loop (transcripts : list Transcript) (sb : string) :
  fold_left
    (fun sb t => sb +:+ ("[" +:+ formatTime (StartTime t) +:+ "] " +:+ Text t +:+ nl))
    transcripts sb
  = sb +:+ String.concat EmptyString (map (fun t => textLine t +:+ nl) transcripts).
Proof.
  revert sb. induction transcripts as [|t rest IH]; intros sb.
  - cbn. now rewrite app_nil_r.
  - cbn [fold_left map]. rewrite IH, app_assoc. f_equal.
    unfold textLine. rewrite !app_assoc.
    destruct rest as [|t' rest']; [cbn; now rewrite !app_nil_r|].
    cbn [map String.concat]. now rewrite app_nil_l, !app_assoc.
Qed.

Lemma concat_cons (x : string) (xs : list string) :
  String.concat EmptyString (x :: xs) = x +:+ String.concat EmptyString xs.
Proof. destruct xs; cbn [String.concat]; [now rewrite app_nil_r | reflexivity]. Qed.

(** X11: the output of the text formatter, cut at the line feeds, is the line
    of each entry, in order, and an empty piece behind the last line feed,
    where the text of no entry has a line feed. *)
Theorem text_output_lines (transcripts : list Transcript) :
  Forall (fun t => Contains (Text t) nl = false) transcripts ->
  exists output,
    TextFormatter_Format transcripts = Ok output
    /\ Split output nl = map textLine transcripts ++ [EmptyString].
Proof.
  intros H. eexists. split; [reflexivity|].
  rewrite text_loop, app_nil_l.
  induction H as [|t rest Ht _ IH]; [reflexivity|].
  cbn [map]. rewrite concat_cons, app_assoc, Split_line, IH; [reflexivity|].
  unfold textLine. rewrite !hasChar_app, formatTime_line_feed.
  apply hasChar_line_feed in Ht. now rewrite Ht.
Qed.

(** The four lines of an SRT block. *)
Definition srtLines (i : Z) (t : Transcript) : list string :=
  [ Fmt.d (i + 1);
    formatSRTTime (StartTime t) +:+ " --> "
      +:+ formatSRTTime (StartTime t + Duration t)%float;
    Text t;
    EmptyString ].

Fixpoint srtAllLines (i : Z) (transcripts : list Transcript) : list string :=
  match transcripts with
  | [] => []
  | t :: rest => srtLines i t ++ srtAllLines (i + 1) rest
  end.

Lemma srtBlocks_lines (transcripts : list Transcript) (i : Z) :
  Forall (fun t => Contains (Text t) nl = false) transcripts ->
  Split (srtBlocks i transcripts) nl = srtAllLines i transcripts ++ [EmptyString].
Proof.
  intros H. revert i. induction H as [|t rest Ht _ IH]; intros i; [reflexivity|].
  cbn [srtBlocks srtAllLines]. unfold srtEntry, srtLines. cbv zeta.
  rewrite !app_assoc.
  rewrite Split_line by apply d_line_feed.
  rewrite <- (app_assoc (formatSRTTime (StartTime t)) " --> "), <- app_assoc.
  rewrite Split_line
    by (rewrite !hasChar_app, !formatSRTTime_line_feed; reflexivity).
  rewrite Split_line by (now apply hasChar_line_feed).
  rewrite <- (app_nil_l (nl +:+ srtBlocks (i + 1) rest)).
  rewrite Split_line by reflexivity.
  rewrite IH. cbn [app]. now rewrite app_assoc.
Qed.

(** X12: the output of the SRT formatter, cut at the line feeds, is four lines
    for each entry, in order: the position of the entry counted from 1, the
    time range, the text and an empty line; where the text of no entry has
    a line feed. *)
Theorem srt_output_lines (transcripts : list Transcript) :
  Forall (fun t => Contains (Text t) nl = false) transcripts ->
  exists output,
    SRTFormatter_Format transcripts = Ok output
    /\ Split output nl = srtAllLines 0 transcripts ++ [EmptyString]
    /\ length (srtAllLines 0 transcripts) = (4 * length transcripts)%nat.
Proof.
  intros H. eexists. split; [apply SRTFormatter_Format_blocks|].
  split; [now apply srtBlocks_lines|].
  clear H. generalize 0. induction transcripts as [|t rest IH]; intros i; [reflexivity|].
  cbn [srtAllLines length app srtLines]. rewrite IH. lia.
Qed.

Lemma sampleSegments_lines :
  Forall (fun t => Contains (Text t) nl = false) MatcherCompleteness.sampleSegments.
Proof. repeat constructor. Qed.

Lemma text_output_lines_witness :
  exists output,
    TextFormatter_Format MatcherCompleteness.sampleSegments = Ok output
    /\ Split output nl = map textLine MatcherCompleteness.sampleSegments ++ [EmptyString].
Proof. apply text_output_lines. exact sampleSegments_lines. Defined.

Lemma srt_output_lines_witness :
  exists output,
    SRTFormatter_Format MatcherCompleteness.sampleSegments = Ok output
    /\ Split output nl = srtAllLines 0 MatcherCompleteness.sampleSegments ++ [EmptyString]
    /\ length (srtAllLines 0 MatcherCompleteness.sampleSegments)
       = (4 * length MatcherCompleteness.sampleSegments)%nat.
Proof. apply srt_output_lines. exact sampleSegments_lines. Defined.

(** A line feed in a text shows as one more line. *)
Example text_with_line_feed :
  exists output,
    TextFormatter_Format [ {| Text := "a" +:+ nl +:+ "b"; Duration := 1; Offset := 0;
                             StartTime := 0 |} ] = Ok output
    /\ Split output nl = ["[0:00] a"; "b"; EmptyString]%string.
Proof. eexists. split; [reflexivity|]. vm_compute. reflexivity. Qed.

End OutputLines.

(** ** The clock fields, checked over a range of times *)

Module ClockProperties.
Import Strings Strconv Api Formatters StringFacts.

(** The integers from 0 up to [n], [n] left out. *)
Definition upto (n : Z) : list Z := map Z.of_nat (seq 0 (Z.to_nat n)).

Lemma forallb_upto (p : Z -> bool) (n : Z) :
  forallb p (upto n) = true -> forall k, 0 <= k < n -> p k = true.
Proof.
  intros H k Hk. rewrite forallb_forall in H. apply H.
  unfold upto. apply in_map_iff. exists (Z.to_nat k).
  split; [lia|]. apply in_seq. lia.
Qed.

(** The time of day of [n] seconds as the text formatter is to write it:
    minutes and seconds, with the hours in front from one hour on. *)
Definition clock (n : Z) : string :=
  if 0 <? n / 3600
  then Fmt.d (n / 3600) +:+ ":" +:+ Fmt.d0 2 (n / 60 mod 60) +:+ ":" +:+ Fmt.d0 2 (n mod 60)
  else Fmt.d (n / 60) +:+ ":" +:+ Fmt.d0 2 (n mod 60).

Lemma formatTime_checked :
  forallb (fun n => String.eqb (formatTime (float64_of_int n)) (clock n)) (upto 14400) = true.
Proof. vm_cast_no_check (eq_refl true). Qed.

(** X13: for every whole number of seconds below four hours, [formatTime] writes
    the minutes and the seconds of the time, and the hours from one hour
    on: the passage through a duration in nanoseconds and back through
    floating-point hours, minutes and seconds loses nothing there. *)
Theorem formatTime_whole_seconds (n : Z) :
  0 <= n < 14400 -> formatTime (float64_of_int n) = clock n.
Proof.
  intros H. apply String.eqb_eq.
  exact (forallb_upto _ 14400 formatTime_checked n H).
Qed.

Lemma formatTime_whole_seconds_witness :
  formatTime (float64_of_int 3725) = clock 3725.
Proof. apply formatTime_whole_seconds. lia. Defined.

(** A time of [k] milliseconds as a caption body has it: the seconds, a
    point and three decimals. *)
Definition stamp (k : Z) : string := Fmt.d (k / 1000) +:+ "." +:+ Fmt.d0 3 (k mod 1000).

(** The SRT time of [k] milliseconds, below one minute, with [ms] in the
    last field. *)
Definition srtClock (k ms : Z) : string :=
  "00:00:" +:+ Fmt.d0 2 (k / 1000) +:+ "," +:+ Fmt.d0 3 ms.

Definition srtChecked (k : Z) : bool :=
  match ParseFloat (stamp k) with
  | Some seconds =>
      String.eqb (formatSRTTime seconds) (srtClock k (k mod 1000))
      || (0 <? k mod 1000)
         && String.eqb (formatSRTTime seconds) (srtClock k (k mod 1000 - 1))
  | None => false
  end.

Lemma formatSRTTime_checked : forallb srtChecked (upto 10000) = true.
Proof. vm_cast_no_check (eq_refl true). Qed.

(** X14: for every time below ten seconds written with three decimals, the
    parsed value is formatted with the right hours, minutes and seconds,
    and with milliseconds that are either right or one too low, never
    otherwise. *)
Theorem formatSRTTime_milliseconds (k : Z) :
  0 <= k < 10000 ->
  exists seconds ms,
    ParseFloat (stamp k) = Some seconds
    /\ formatSRTTime seconds = srtClock k ms
    /\ 0 <= ms /\ (ms = k mod 1000 \/ ms = k mod 1000 - 1).
Proof.
  intros H. pose proof (forallb_upto _ 10000 formatSRTTime_checked k H) as Hc.
  unfold srtChecked in Hc.
  destruct (ParseFloat (stamp k)) as [seconds|]; [|discriminate].
  exists seconds. apply orb_true_iff in Hc as [Hc|Hc].
  - exists (k mod 1000). apply String.eqb_eq in Hc.
    pose proof (Z.mod_pos_bound k 1000). repeat split; auto; lia.
  - apply andb_true_iff in Hc as [Hpos Hc]. apply Z.ltb_lt in Hpos.
    exists (k mod 1000 - 1). apply String.eqb_eq in Hc.
    repeat split; auto; lia.
Qed.

Lemma formatSRTTime_milliseconds_witness :
  exists seconds ms,
    ParseFloat (stamp 3050) = Some seconds
    /\ formatSRTTime seconds = srtClock 3050 ms
    /\ 0 <= ms /\ (ms = 3050 mod 1000 \/ ms = 3050 mod 1000 - 1).
Proof. apply formatSRTTime_milliseconds. lia. Defined.

(** Both cases occur. *)
Example milliseconds_right : formatSRTTime 1.5 = srtClock 1500 500.
Proof. vm_compute. reflexivity. Qed.

Example milliseconds_short : formatSRTTime 0x1.8666666666666p+1 = srtClock 3050 49.
Proof. vm_compute. reflexivity. Qed.

End ClockProperties.

(** ** What the scraper asks of the network *)

Module NetworkProperties.
Import Strings Api StringFacts.

Section WithLibraries.
Variable json_Unmarshal : string -> option (gmap string Value).
Variable http_NewRequest : string -> string -> option Request.
Variable httpClient_Do : Request -> option Response.

(** The request for the page of a video, as [fetchVideoHTML] sends it. *)
Definition pageRequest (videoID : string) : option Request :=
  req ← http_NewRequest "GET" ("https://www.youtube.com/watch?v=" +:+ videoID);
  Some {| Method := Method req; URLPath := URLPath req;
          Header := <["Accept-Language" := "en-US"%string]> (Header req) |}.

(** The request for the caption body, where the page leads to a track. *)
Definition trackRequest (videoID languageCode : string) : option Request :=
  match fetchVideoHTML http_NewRequest httpClient_Do videoID with
  | Ok html =>
      match extractCaptionsJSON json_Unmarshal html videoID with
      | Ok captionsJSON =>
          match selectTrack captionsJSON languageCode with
          | Ok target => http_NewRequest "GET" (snd target)
          | Err _ => None
          end
      | Err _ => None
      end
  | Err _ => None
  end.

Lemma fetchVideoHTML_agree (Do' : Request -> option Response) (videoID : string) :
  (forall req, pageRequest videoID = Some req -> Do' req = httpClient_Do req) ->
  fetchVideoHTML http_NewRequest Do' videoID
  = fetchVideoHTML http_NewRequest httpClient_Do videoID.
Proof.
  unfold pageRequest, fetchVideoHTML. intros H.
  destruct (http_NewRequest _ _) as [req|]; [|reflexivity].
  now rewrite (H _ eq_refl).
Qed.

(** X15: the result of [fetchTranscripts] rests on what the network answers to
    two requests at most, the one for the page and the one for the caption
    body of the track chosen from that page: a network that answers these
    two alike gives the same result. *)
Theorem two_requests_at_most
        (Do' : Request -> option Response) (videoID languageCode : string) :
  (forall req,
      pageRequest videoID = Some req \/ trackRequest videoID languageCode = Some req ->
      Do' req = httpClient_Do req) ->
  fetchTranscripts json_Unmarshal http_NewRequest Do' videoID languageCode
  = fetchTranscripts json_Unmarshal http_NewRequest httpClient_Do videoID languageCode.
Proof.
  intros H. unfold fetchTranscripts.
  rewrite (fetchVideoHTML_agree Do' videoID) by (intros req Hr; apply H; now left).
  unfold trackRequest in H.
  destruct (fetchVideoHTML http_NewRequest httpClient_Do videoID) as [html|]; [|reflexivity].
  cbn [mbind result_bind].
  destruct (extractCaptionsJSON json_Unmarshal html videoID) as [cj|]; [|reflexivity].
  cbn [mbind result_bind].
  destruct (selectTrack cj languageCode) as [target|]; [|reflexivity].
  cbn [mbind result_bind].
  destruct (http_NewRequest "GET" (snd target)) as [req|]; [|reflexivity].
  cbn [mbind option_bind]. now rewrite (H req (or_intror eq_refl)).
Qed.

End WithLibraries.

Import SegmentInvariants.

(** A network that answers the two requests of the sample and nothing
    else. *)
Definition sampleDoOnly (req : Request) : option Response :=
  if String.eqb (URLPath req) "https://www.youtube.com/watch?v=dQw4w9WgXcQ"
     || String.eqb (URLPath req) sampleTrackURL
  then sampleDo req else None.

Lemma two_requests_at_most_witness :
  fetchTranscripts sampleUnmarshal sampleNewRequest sampleDoOnly "dQw4w9WgXcQ" "en"
  = fetchTranscripts sampleUnmarshal sampleNewRequest sampleDo "dQw4w9WgXcQ" "en".
Proof.
  apply two_requests_at_most.
  intros req [H|H].
  - vm_compute in H. injection H as <-. reflexivity.
  - vm_compute in H. injection H as <-. reflexivity.
Defined.

End NetworkProperties.

(** ** The runs of the command line *)

Module CliProperties.
Import Strings Utf8 Api Formatters Cli StringFacts SegmentInvariants.

(** The format type [Run] goes by, and the environment variables it
    sets. *)
Definition formatTypeOf (c : CLI) : string :=
  if Readable c then "readable"%string else FormatType c.

Definition envOf (c : CLI) : list (string * string) :=
  (if Debug c then [("YTTEXT_DEBUG", "1")] else [])
  ++ (if LogRequest c then [("YTTEXT_LOG_REQUEST", "1")] else []).

Section Runs.
Variable upperTable : rune -> bool.
Variable json_Marshal : bool -> list Transcript -> option string.
Variable clipboard_WriteAll : string -> bool.

Section AnyScraper.
Variable GetTranscriptsByURL :
  list (string * string) -> string -> string -> result (list Transcript).

Local Abbreviation Run := (Cli.Run upperTable GetTranscriptsByURL json_Marshal clipboard_WriteAll).

(** The ways a run ends. *)
Inductive ending (c : CLI) (r : run) : Prop :=
| Printed (transcripts : list Transcript) (formatter : Formatter)
    (Hscraped : GetTranscriptsByURL (envOf c) (VideoURL c) (LanguageCode c) = Ok transcripts)
    (Hsome : transcripts <> [])
    (Hformatter : NewFormatter (formatTypeOf c) = Ok formatter)
    (Hformatted : Format upperTable json_Marshal formatter transcripts = inr (stdout r))
    (Hexit : exitCode r = 0)
    (Hclipboard : clipboard r = None \/ Copy c = true /\ clipboard r = Some (stdout r))
    (Hstderr : stderr r = [] \/ stderr r = [MsgCopied] \/ stderr r = [MsgClipboardWarning])
    (Hsetenv : setenv r = envOf c)
| ScrapeFailed (e : error)
    (Hscraped : GetTranscriptsByURL (envOf c) (VideoURL c) (LanguageCode c) = Err e)
    (Hrun : r = failed (envOf c) [MsgError (Failure e); MsgSolutions (negb (Debug c))])
| NothingScraped
    (Hscraped : GetTranscriptsByURL (envOf c) (VideoURL c) (LanguageCode c) = Ok [])
    (Hrun : r = failed (envOf c) [MsgNoContent])
| FormatUnknown (transcripts : list Transcript) (e : error)
    (Hscraped : GetTranscriptsByURL (envOf c) (VideoURL c) (LanguageCode c) = Ok transcripts)
    (Hformatter : NewFormatter (formatTypeOf c) = Err e)
    (Hrun : r = failed (envOf c) [MsgError (Failure e)])
| FormatFailed (transcripts : list Transcript) (formatter : Formatter) (f : failure)
    (Hscraped : GetTranscriptsByURL (envOf c) (VideoURL c) (LanguageCode c) = Ok transcripts)
    (Hformatter : NewFormatter (formatTypeOf c) = Ok formatter)
    (Hformatted : Format upperTable json_Marshal formatter transcripts = inl f)
    (Hrun : r = failed (envOf c) [MsgError f]).

Lemma Run_ending (c : CLI) : ending c (Run c).
Proof.
  unfold Cli.Run. cbv zeta. fold (envOf c). fold (formatTypeOf c).
  destruct (GetTranscriptsByURL (envOf c) (VideoURL c) (LanguageCode c)) as [ts|e] eqn:Hs.
  2: { now apply (ScrapeFailed _ _ e). }
  destruct ts as [|t ts]; [now apply NothingScraped|].
  cbn [length Nat.eqb].
  destruct (NewFormatter _) as [formatter|e] eqn:Hf;
    [|now apply (FormatUnknown _ _ (t :: ts) e)].
  destruct (Format _ _ formatter (t :: ts)) as [f|output] eqn:Ho;
    [now apply (FormatFailed _ _ (t :: ts) formatter f)|].
  apply (Printed _ _ (t :: ts) formatter); cbn [exitCode stdout clipboard stderr].
  - exact Hs.
  - discriminate.
  - exact Hf.
  - exact Ho.
  - reflexivity.
  - destruct (Copy c); [|now left].
    destruct (clipboard_WriteAll output); [right; now split | now left].
  - destruct (Copy c); [|now left].
    destruct (clipboard_WriteAll output); right; [now left | now right].
  - reflexivity.
Qed.


Lemma Format_known (formatType : string) (transcripts : list Transcript) :
  In formatType ["text"; "srt"; "readable"]%string ->
  exists formatter output,
    NewFormatter formatType = Ok formatter
    /\ Format upperTable json_Marshal formatter transcripts = inr output.
Proof.
  intros [<- | [<- | [<- | []]]]; eexists _, _; (split; [reflexivity|]);
    cbn [Format ofResult]; reflexivity.
Qed.

(** X17: for the format types text, srt and readable, and whenever the
    readable flag is set, formatting cannot fail: the exit code is 0
    exactly when the scraper returns a list that is not empty. *)
Theorem Run_known_format (c : CLI) :
  In (formatTypeOf c) ["text"; "srt"; "readable"]%string ->
  exitCode (Run c) = 0
  <-> exists transcripts,
      GetTranscriptsByURL (envOf c) (VideoURL c) (LanguageCode c) = Ok transcripts
      /\ transcripts <> [].
Proof.
  intros Hk. split.
  - intros H0. destruct (Run_ending c); try (rewrite Hrun in H0; discriminate).
    now exists transcripts.
  - intros (ts & Hs & Hne).
    destruct (Format_known _ ts Hk) as (formatter & output & Hf & Ho).
    destruct (Run_ending c); try assumption; congruence.
Qed.

End AnyScraper.

Section ApiScraper.
Variable url_Parse : string -> option URL.
Variable url_ParseQuery : string -> gmap string (list string).
Variable json_Unmarshal : string -> option (gmap string Value).
Variable http_NewRequest : string -> string -> option Request.
Variable httpClient_Do : Request -> option Response.


End ApiScraper.

End Runs.

(** A run over the sample network, with the readable flag set beside a
    format type that does not exist. *)
Definition sampleScraper (env : list (string * string)) : string -> string
                                                           -> result (list Transcript) :=
  Api.GetTranscriptsByURL (fun _ => None) (fun _ => ∅) sampleUnmarshal sampleNewRequest
    sampleDo.

Definition sampleCLI : CLI :=
  {| Debug := false; LogRequest := true; LanguageCode := "en"; FormatType := "yaml";
     Readable := true; Copy := false; VideoURL := "https://youtu.be/dQw4w9WgXcQ" |}.

Lemma Run_known_format_witness :
  exitCode (Cli.Run (fun _ => false) sampleScraper (fun _ _ => None) (fun _ => false)
              sampleCLI) = 0
  <-> exists transcripts,
      sampleScraper (envOf sampleCLI) (VideoURL sampleCLI) (LanguageCode sampleCLI)
      = Ok transcripts
      /\ transcripts <> [].
Proof. apply Run_known_format. right. right. left. reflexivity. Defined.

Example sample_run_text :
  Cli.Run (fun _ => false) sampleScraper (fun _ _ => None) (fun _ => true)
    {| Debug := true; LogRequest := false; LanguageCode := "en"; FormatType := "text";
       Readable := false; Copy := true; VideoURL := "https://youtu.be/dQw4w9WgXcQ" |}
  = let output := "[0:00] Tom & Jerry say " +:+ dq +:+ "hi" +:+ dq +:+ nl
                  +:+ "[0:03] <i>so</i> it's 1 < 2" +:+ nl
                  +:+ "[0:05] " +:+ nl in
    {| exitCode := 0; stdout := output; stderr := [MsgCopied];
       setenv := [("YTTEXT_DEBUG", "1")]; clipboard := Some output |}.
Proof. vm_compute. reflexivity. Qed.

Example sample_run_unknown_format :
  Cli.Run (fun _ => false) sampleScraper (fun _ _ => None) (fun _ => true)
    {| Debug := false; LogRequest := false; LanguageCode := "en"; FormatType := "yaml";
       Readable := false; Copy := true; VideoURL := "https://youtu.be/dQw4w9WgXcQ" |}
  = failed [] [MsgError (Failure (ErrUnknownFormat "yaml"))].
Proof. vm_compute. reflexivity. Qed.

End CliProperties.
